(** * SliceMap: an interval-to-value map over a sorted list of breakpoints

    Shallow embedding of [slicemap/slicemap.py] and verification of its
    documented properties.

    - Keys are Python numbers extended with [float("inf")] and
      [-float("inf")]; finite keys are modelled as integers.  The code only
      compares and copies keys, it never computes with them.  NaN keys are
      outside the model.
    - [self.data] is a [SortedList] keyed by [up_to_key]; it is modelled as a
      list of pairs together with the list operations the code calls
      ([bisect_left], [bisect_right], [pop], [add], indexing).
    - Python exceptions are modelled by the [result] type. *)

From Stdlib Require Import String ZArith Bool Lia List Sorted.
From Stdlib Require DecimalString.
Import ListNotations.

Local Open Scope Z_scope.

(** ** Exceptions *)

Inductive exn : Type :=
| IndexError
| TypeError
| AssertionError
| ValueError.

Inductive result (A : Type) : Type :=
| Ok (a : A)
| Raise (e : exn).

Arguments Ok {A} a.
Arguments Raise {A} e.

Definition bind {A B : Type} (r : result A) (k : A -> result B) : result B :=
  match r with
  | Ok a => k a
  | Raise e => Raise e
  end.

Notation "x <- r ;; k" := (bind r (fun x => k))
  (at level 61, r at next level, right associativity).

(** ** Keys: numbers extended with the two infinities *)

Inductive ekey : Type :=
| NInf
| Fin (z : Z)
| PInf.

Definition ek_ltb (a b : ekey) : bool :=
  match a, b with
  | NInf, NInf => false
  | NInf, _ => true
  | Fin x, Fin y => x <? y
  | Fin _, PInf => true
  | _, _ => false
  end.

Definition ek_leb (a b : ekey) : bool := negb (ek_ltb b a).

Definition ek_lt (a b : ekey) : Prop := ek_ltb a b = true.
Definition ek_le (a b : ekey) : Prop := ek_leb a b = true.

(** ** Pair (the dataclass) *)

Record Pair (V : Type) : Type := mkPair {
  up_to_key : ekey;
  value : option V
}.

Arguments mkPair {V} up_to_key value.
Arguments up_to_key {V} p.
Arguments value {V} p.

(** ** The SortedList operations used by the code

    [SortedList(key=lambda x: x.up_to_key)] comes from the external
    [sortedcontainers] package and keeps its elements ordered by
    [up_to_key].  Its operations are modelled by what they return on a list
    in ascending key order: positions are found by comparing keys only, and
    the binary searches are written as walks from the left, which reach the
    same index on such a list. *)

Section SortedList.
Context {V : Type}.

(** [bisect_left p]: index of the first element whose key is [>=] the key
    of [p]. *)
Fixpoint bisect_left (p : Pair V) (l : list (Pair V)) : nat :=
  match l with
  | [] => O
  | q :: t => if ek_ltb (up_to_key q) (up_to_key p)
              then S (bisect_left p t) else O
  end.

(** [bisect_right p]: index of the first element whose key is [>] the key
    of [p]. *)
Fixpoint bisect_right (p : Pair V) (l : list (Pair V)) : nat :=
  match l with
  | [] => O
  | q :: t => if ek_leb (up_to_key q) (up_to_key p)
              then S (bisect_right p t) else O
  end.

(** [data[i]] for a non-negative index. *)
Definition getidx (l : list (Pair V)) (i : nat) : result (Pair V) :=
  match nth_error l i with
  | Some p => Ok p
  | None => Raise IndexError
  end.

(** [data[-1]]. *)
Definition getlast (l : list (Pair V)) : result (Pair V) :=
  match l with
  | [] => Raise IndexError
  | _ => getidx l (Nat.pred (length l))
  end.

(** [data.pop(i)]: removes position [i]; the popped element is dropped. *)
Fixpoint pop (i : nat) (l : list (Pair V)) : result (list (Pair V)) :=
  match l, i with
  | [], _ => Raise IndexError
  | _ :: t, O => Ok t
  | q :: t, S j => t' <- pop j t ;; Ok (q :: t')
  end.

(** [data.add(p)]: inserts [p] after every element whose key is [<=] its
    own. *)
Definition add (p : Pair V) (l : list (Pair V)) : list (Pair V) :=
  let i := bisect_right p l in
  firstn i l ++ p :: skipn i l.

(** [for _ in range(n): data.pop(i)]. *)
Fixpoint pop_loop (n i : nat) (l : list (Pair V)) : result (list (Pair V)) :=
  match n with
  | O => Ok l
  | S n' => l' <- pop i l ;; pop_loop n' i l'
  end.

End SortedList.

(** ** Python slice objects and keys of [__getitem__] *)

Record slice : Type := mkSlice {
  slice_start : option ekey;
  slice_stop : option ekey;
  slice_step : option Z
}.

Inductive getkey : Type :=
| Scalar (k : ekey)
| SliceKey (s : slice).

(** ** The container *)

Record SliceMap (V : Type) : Type := mkSliceMap {
  data : list (Pair V);
  include : string
}.

Arguments mkSliceMap {V} data include.
Arguments data {V} s.
Arguments include {V} s.

(** What [__getitem__] returns: a single value or a tuple of values. *)
Inductive ret (V : Type) : Type :=
| RValue (v : option V)
| RTuple (t : list (option V)).

Arguments RValue {V} v.
Arguments RTuple {V} t.

Section SliceMapOps.
Context {V : Type}.

(** [__init__]. *)
Definition init (inc : string) : result (SliceMap V) :=
  if (String.eqb inc "start" || String.eqb inc "end")%bool
  then Ok (mkSliceMap (add (mkPair PInf None) []) inc)
  else Raise AssertionError.

(** [export]. *)
Definition export (m : SliceMap V)
  : result (list (ekey * ekey * option V)) :=
  p0 <- getidx (data m) 0 ;;
  Ok ((NInf, up_to_key p0, value p0)
      :: map (fun pp => (up_to_key (fst pp), up_to_key (snd pp), value (snd pp)))
             (combine (data m) (tl (data m)))).

Definition slice_lo (s : slice) : ekey :=
  match slice_start s with Some k => k | None => NInf end.

Definition slice_hi (s : slice) : ekey :=
  match slice_stop s with Some k => k | None => PInf end.

Definition step_ok (s : slice) : bool :=
  match slice_step s with
  | Some z => z =? 1
  | None => true
  end.

(** Lines 79-95 of [__setitem__]: the two searches, the value to keep and
    the removal loop.  Returns the kept value and the list after the
    loop. *)
Definition remove_covered (l : list (Pair V)) (start stop : ekey)
  : result (option V * list (Pair V)) :=
  let start_key_idx := bisect_left (mkPair start None) l in
  let end_key_idx := bisect_right (mkPair stop None) l in
  old_value_to_keep <-
    (if (start_key_idx <? length l)%nat
     then p <- getidx l start_key_idx ;; Ok (value p)
     else Ok None) ;;
  let num_el_to_remove := (end_key_idx - start_key_idx)%nat in
  l' <- pop_loop num_el_to_remove start_key_idx l ;;
  Ok (old_value_to_keep, l').

(** [__setitem__]. *)
Definition setitem (m : SliceMap V) (slice_key : slice) (v : option V)
  : result (SliceMap V) :=
  if negb (step_ok slice_key) then Raise AssertionError else
  let start := slice_lo slice_key in
  let stop := slice_hi slice_key in
  if ek_leb stop start then Ok m else
  r <- remove_covered (data m) start stop ;;
  let old_value_to_keep := fst r in
  let l1 := snd r in
  let l2 := if ek_ltb NInf start
            then add (mkPair start old_value_to_keep) l1 else l1 in
  Ok (mkSliceMap (add (mkPair stop v) l2) (include m)).

(** The search function selected by the inclusion policy. *)
Definition search_op (m : SliceMap V) : Pair V -> list (Pair V) -> nat :=
  if String.eqb (include m) "start" then bisect_right else bisect_left.

(** [search_op(Pair(up_to_key=b))] for a bound of a slice key, which may
    be [None]: comparing [None] with a stored key raises [TypeError]; an
    empty list is searched without any comparison. *)
Definition search_bound (m : SliceMap V) (b : option ekey) : result nat :=
  match b with
  | Some k => Ok (search_op m (mkPair k None) (data m))
  | None => match data m with
            | [] => Ok O
            | _ => Raise TypeError
            end
  end.

(** [tuple(data[i].value for i in idxs)]. *)
Fixpoint values_at (l : list (Pair V)) (idxs : list nat)
  : result (list (option V)) :=
  match idxs with
  | [] => Ok []
  | i :: rest =>
      p <- getidx l i ;;
      vs <- values_at l rest ;;
      Ok (value p :: vs)
  end.

(** [range(a, b)]. *)
Definition range (a b : nat) : list nat := seq a (b - a).

(** [__getitem__]. *)
Definition getitem (m : SliceMap V) (key : getkey) : result (ret V) :=
  match key with
  | Scalar PInf => p <- getlast (data m) ;; Ok (RValue (value p))
  | Scalar NInf => p <- getidx (data m) 0 ;; Ok (RValue (value p))
  | SliceKey s =>
      idx1 <- search_bound m (slice_start s) ;;
      idx2 <- search_bound m (slice_stop s) ;;
      t <- values_at (data m) (range idx1 (idx2 + 1)) ;;
      Ok (RTuple t)
  | Scalar k =>
      let idx := search_op m (mkPair k None) (data m) in
      p <- getidx (data m) idx ;;
      Ok (RValue (value p))
  end.

(** [__len__]. *)
Definition len (m : SliceMap V) : Z := Z.of_nat (length (data m)) - 1.

(** A sequence of [m[slice] = value] statements, run in order. *)
Fixpoint assigns (m : SliceMap V) (calls : list (slice * option V))
  : result (SliceMap V) :=
  match calls with
  | [] => Ok m
  | (s, v) :: rest => m' <- setitem m s v ;; assigns m' rest
  end.

(** States a program can observe: a constructed map after some
    assignments. *)
Definition reachable (m : SliceMap V) : Prop :=
  exists inc calls m0, init inc = Ok m0 /\ assigns m0 calls = Ok m.

End SliceMapOps.

(** ** Definitions used to state and prove the properties *)

Section Scan.
Variable V : Type.
Variable f : Pair V -> bool.

(** Length of the longest prefix on which [f] holds: what both bisect
    functions compute, each for its own test. *)
Fixpoint scan (l : list (Pair V)) : nat :=
  match l with
  | [] => O
  | q :: t => if f q then S (scan t) else O
  end.

End Scan.

Arguments scan {V} f l.

Section Groups.
Context {V : Type}.
Implicit Types (p q : Pair V) (l A M B R : list (Pair V)).

Definition below (k : ekey) q : Prop := ek_ltb (up_to_key q) k = true.
Definition above (k : ekey) q : Prop := ek_ltb k (up_to_key q) = true.
Definition within (lo hi : ekey) q : Prop :=
  ek_leb lo (up_to_key q) = true /\ ek_leb (up_to_key q) hi = true.

(** The value of the first entry of a list, [None] for an empty list. *)
Definition kept_value R : option V :=
  match R with
  | [] => None
  | p :: _ => value p
  end.

(** The entry re-inserted at a lower bound other than [-inf]. *)
Definition start_entry (start : ekey) old : list (Pair V) :=
  if ek_ltb NInf start then [mkPair start old] else [].

Definition key_lt p q : Prop := ek_ltb (up_to_key p) (up_to_key q) = true.

(** Strictly ascending keys. *)
Definition sorted l : Prop := StronglySorted key_lt l.

(** Strictly ascending keys, a sentinel entry at [+inf], no entry at
    [-inf]. *)
Definition wf l : Prop :=
  sorted l /\ Exists (fun q => up_to_key q = PInf) l /\ Forall (above NInf) l.

(** The entries a point or range search walks past, per inclusion
    policy: keys [<= k] under [start] ([bisect_right]), keys [< k]
    otherwise ([bisect_left]). *)
Definition passes (inc : string) (k : ekey) q : bool :=
  if String.eqb inc "start"
  then ek_leb (up_to_key q) k
  else ek_ltb (up_to_key q) k.

(** The first entry a search does not walk past. *)
Definition owner (inc : string) (k : ekey) l : option (Pair V) :=
  find (fun q => negb (passes inc k q)) l.

(** The triples [(lower, upper, value)] of a list of entries, the first
    lower bound being [lo]. *)
Fixpoint triples_from (lo : ekey) l : list (ekey * ekey * option V) :=
  match l with
  | [] => []
  | q :: t => (lo, up_to_key q, value q) :: triples_from (up_to_key q) t
  end.

Definition is_inf q : bool :=
  match up_to_key q with
  | PInf => true
  | _ => false
  end.

End Groups.

Definition t_lower {V : Type} (t : ekey * ekey * option V) : ekey := fst (fst t).
Definition t_upper {V : Type} (t : ekey * ekey * option V) : ekey := snd (fst t).
Definition t_value {V : Type} (t : ekey * ekey * option V) : option V := snd t.

(** ** Concrete inputs *)

(** The slice [lo:hi] between two given bounds. *)
Definition sl (lo hi : ekey) : slice := mkSlice (Some lo) (Some hi) None.

(** [m[0:10] = "a"; m[10:20] = "b"; m[5:15] = "c"]. *)
Definition abc_calls : list (slice * option string) :=
  [ (sl (Fin 0) (Fin 10), Some "a"%string);
    (sl (Fin 10) (Fin 20), Some "b"%string);
    (sl (Fin 5) (Fin 15), Some "c"%string) ].

(** [SliceMap(include=inc)] followed by the given assignments. *)
Definition build {V : Type} (inc : string) (calls : list (slice * option V))
  : result (SliceMap V) :=
  m0 <- init inc ;; assigns m0 calls.

(** ** [__repr__] *)

Section Repr.
Context {V : Type}.
Local Open Scope string_scope.

(** [str(x)] for a stored value [x] other than [None]; it is taken not to
    raise. *)
Variable show : V -> string.

(** [sys.get_int_max_str_digits()]: the interpreter's limit on the number
    of digits of an integer turned into text, 4300 unless set otherwise;
    0 means no limit, as in interpreters that predate the limit. *)
Variable int_max_str_digits : nat.









End Repr.

(** ** Further definitions for stating properties *)

(** The keys an assignment of [lo:hi] takes over, per inclusion policy:
    [lo <= k < hi] under [start], [lo < k <= hi] otherwise. *)
Definition assigned (inc : string) (lo hi k : ekey) : bool :=
  if String.eqb inc "start"
  then ek_leb lo k && ek_ltb k hi
  else ek_ltb lo k && ek_leb k hi.

(** The entries with [lo <= up_to_key <= hi]: those the removal loop of an
    assignment of [lo:hi] pops. *)
Definition covered {V : Type} (lo hi : ekey) (q : Pair V) : bool :=
  ek_leb lo (up_to_key q) && ek_leb (up_to_key q) hi.

(** The assignments that write the exported triples back, one per
    triple. *)
Definition calls_of {V : Type} (ts : list (ekey * ekey * option V))
  : list (slice * option V) :=
  map (fun t => (sl (t_lower t) (t_upper t), t_value t)) ts.

(** * Verification *)

(** ** The order on keys *)

Ltac ek_solve :=
  unfold ek_lt, ek_le, ek_leb in *;
  repeat match goal with k : ekey |- _ => destruct k end;
  simpl in *;
  rewrite ?negb_true_iff, ?negb_false_iff in *;
  rewrite ?Z.ltb_lt, ?Z.ltb_ge in *;
  try congruence; try lia.

Lemma ek_ltb_trans a b c :
  ek_ltb a b = true -> ek_ltb b c = true -> ek_ltb a c = true.
Proof. intros; ek_solve. Qed.

Lemma ek_ltb_leb_trans a b c :
  ek_ltb a b = true -> ek_leb b c = true -> ek_ltb a c = true.
Proof. intros; ek_solve. Qed.

Lemma ek_leb_ltb_trans a b c :
  ek_leb a b = true -> ek_ltb b c = true -> ek_ltb a c = true.
Proof. intros; ek_solve. Qed.

Lemma ek_ltb_irrefl a : ek_ltb a a = false.
Proof. ek_solve. Qed.

Lemma ek_leb_false a b : ek_leb a b = false <-> ek_ltb b a = true.
Proof. unfold ek_leb; now rewrite negb_false_iff. Qed.

Lemma ek_ltb_false a b : ek_ltb a b = false <-> ek_leb b a = true.
Proof. unfold ek_leb; now rewrite negb_true_iff. Qed.

Lemma ek_ltb_leb a b : ek_ltb a b = true -> ek_leb a b = true.
Proof. intros; ek_solve. Qed.

Lemma ek_leb_PInf a : ek_leb a PInf = true.
Proof. ek_solve. Qed.

Lemma ek_PInf_leb a : ek_leb PInf a = true -> a = PInf.
Proof. intros; ek_solve. Qed.

(** ** Searching a list from the left

    Both bisect functions walk over the maximal prefix on which a test on
    the key holds. *)

Section ScanFacts.
Context {V : Type}.
Variable f : Pair V -> bool.

Lemma scan_all A R :
  Forall (fun q => f q = true) A -> scan f (A ++ R) = (length A + scan f R)%nat.
Proof.
  induction 1 as [|q A Hq _ IH]; simpl; [reflexivity|].
  now rewrite Hq, IH.
Qed.

Lemma scan_stop R : Forall (fun q => f q = false) R -> scan f R = O.
Proof. destruct 1 as [|q R Hq _]; simpl; [reflexivity | now rewrite Hq]. Qed.

Lemma scan_split A R :
  Forall (fun q => f q = true) A -> Forall (fun q => f q = false) R ->
  scan f (A ++ R) = length A.
Proof.
  intros HA HR. rewrite (scan_all _ _ HA), (scan_stop _ HR). lia.
Qed.

Lemma scan_le_length l : (scan f l <= length l)%nat.
Proof. induction l as [|q t IH]; simpl; [lia | destruct (f q); simpl; lia]. Qed.

Lemma nth_scan_find l :
  nth_error l (scan f l) = find (fun q => negb (f q)) l.
Proof.
  induction l as [|q t IH]; simpl; [reflexivity|].
  destruct (f q); simpl; [exact IH | reflexivity].
Qed.

Lemma scan_lt_length l :
  Exists (fun q => f q = false) l -> (scan f l < length l)%nat.
Proof.
  induction 1 as [q t Hq | q t _ IH]; simpl.
  - rewrite Hq; lia.
  - destruct (f q); lia.
Qed.
End ScanFacts.

Section ListFacts.
Context {V : Type}.
Implicit Types (p q : Pair V) (l A M B R : list (Pair V)).

Lemma bisect_left_scan p l :
  bisect_left p l = scan (fun q => ek_ltb (up_to_key q) (up_to_key p)) l.
Proof. induction l as [|q t IH]; simpl; [|rewrite IH]; reflexivity. Qed.

Lemma bisect_right_scan p l :
  bisect_right p l = scan (fun q => ek_leb (up_to_key q) (up_to_key p)) l.
Proof. induction l as [|q t IH]; simpl; [|rewrite IH]; reflexivity. Qed.

Lemma pop_middle A q R : pop (length A) (A ++ q :: R) = Ok (A ++ R).
Proof.
  induction A as [|a A IH]; simpl; [reflexivity|].
  now rewrite IH.
Qed.

Lemma pop_loop_middle A M B :
  pop_loop (length M) (length A) (A ++ M ++ B) = Ok (A ++ B).
Proof.
  induction M as [|q M IH]; simpl; [reflexivity|].
  rewrite pop_middle. simpl. exact IH.
Qed.

Lemma firstn_length_app A R : firstn (length A) (A ++ R) = A.
Proof. induction A as [|a A IH]; simpl; [now destruct R | now rewrite IH]. Qed.

Lemma skipn_length_app A R : skipn (length A) (A ++ R) = R.
Proof. induction A as [|a A IH]; simpl; [now destruct R | exact IH]. Qed.

Lemma nth_error_length_app A R : nth_error (A ++ R) (length A) = hd_error R.
Proof. induction A as [|a A IH]; simpl; [now destruct R | exact IH]. Qed.

(** [add] puts the new pair between the keys [<=] its own and the keys
    [>] its own. *)
Lemma add_between p A B :
  Forall (fun q => ek_leb (up_to_key q) (up_to_key p) = true) A ->
  Forall (fun q => ek_ltb (up_to_key p) (up_to_key q) = true) B ->
  add p (A ++ B) = A ++ p :: B.
Proof.
  intros HA HB. unfold add.
  rewrite bisect_right_scan, scan_split; trivial.
  - now rewrite firstn_length_app, skipn_length_app.
  - eapply Forall_impl; [|exact HB]. intros q Hq. now apply ek_leb_false.
Qed.
End ListFacts.

(** ** What an assignment does to the list

    With the entries split into those below [start], those between [start]
    and [stop], and those above [stop], the assignment keeps the first and
    the last group and puts the new boundaries between them. *)

Section Assignment.
Context {V : Type}.
Implicit Types (p q : Pair V) (l A M B R : list (Pair V)).
Implicit Types (m : SliceMap V) (v old : option V).

Lemma remove_covered_split A M B start stop :
  ek_ltb start stop = true ->
  Forall (below start) A -> Forall (within start stop) M ->
  Forall (above stop) B ->
  remove_covered (A ++ M ++ B) start stop
  = Ok (kept_value (M ++ B), A ++ B).
Proof.
  intros Hlt HA HM HB. unfold remove_covered.
  assert (Hi : bisect_left (mkPair start None) (A ++ M ++ B) = length A).
  { rewrite bisect_left_scan. apply scan_split; simpl; [exact HA|].
    apply Forall_app; split.
    - eapply Forall_impl; [|exact HM]. intros q [H1 _].
      now apply ek_ltb_false.
    - eapply Forall_impl; [|exact HB]. unfold above. intros q H1.
      apply ek_ltb_false, ek_ltb_leb. eapply ek_ltb_trans; eassumption. }
  assert (Hj : bisect_right (mkPair stop None) (A ++ M ++ B)
               = (length A + length M)%nat).
  { rewrite bisect_right_scan, app_assoc, <- length_app.
    apply scan_split; simpl.
    - apply Forall_app; split.
      + eapply Forall_impl; [|exact HA]. unfold below. intros q H1.
        apply ek_ltb_leb. eapply ek_ltb_trans; eassumption.
      + eapply Forall_impl; [|exact HM]. now intros q [_ H2].
    - eapply Forall_impl; [|exact HB]. intros q H1. now apply ek_leb_false. }
  rewrite Hi, Hj.
  replace (length A + length M - length A)%nat with (length M) by lia.
  rewrite pop_loop_middle. unfold getidx.
  rewrite nth_error_length_app, length_app.
  destruct (M ++ B) as [|r R] eqn:E; simpl.
  - replace (length A <? length A + 0)%nat with false; [reflexivity|].
    symmetry. apply Nat.ltb_ge. lia.
  - replace (length A <? length A + S (length R))%nat with true; [reflexivity|].
    symmetry. apply Nat.ltb_lt. lia.
Qed.

Lemma setitem_split A M B inc s v :
  step_ok s = true ->
  ek_ltb (slice_lo s) (slice_hi s) = true ->
  Forall (below (slice_lo s)) A ->
  Forall (within (slice_lo s) (slice_hi s)) M ->
  Forall (above (slice_hi s)) B ->
  setitem (mkSliceMap (A ++ M ++ B) inc) s v
  = Ok (mkSliceMap
          (A ++ start_entry (slice_lo s) (kept_value (M ++ B))
             ++ mkPair (slice_hi s) v :: B) inc).
Proof.
  intros Hstep Hlt HA HM HB. unfold setitem. rewrite Hstep.
  cbn [negb data include].
  replace (ek_leb (slice_hi s) (slice_lo s)) with false
    by (symmetry; now apply ek_leb_false).
  rewrite remove_covered_split by assumption.
  cbn [bind fst snd]. unfold start_entry.
  assert (HA' : Forall (fun q : Pair V =>
                  ek_leb (up_to_key q) (slice_lo s) = true) A).
  { eapply Forall_impl; [|exact HA]. intros q. apply ek_ltb_leb. }
  assert (HB' : Forall (fun q : Pair V =>
                  ek_ltb (slice_lo s) (up_to_key q) = true) B).
  { eapply Forall_impl; [|exact HB]. unfold above. intros q H1.
    eapply ek_ltb_trans; eassumption. }
  destruct (ek_ltb NInf (slice_lo s)) eqn:Hs.
  - rewrite add_between by assumption.
    replace (A ++ mkPair (slice_lo s) (kept_value (M ++ B)) :: B)
      with ((A ++ [mkPair (slice_lo s) (kept_value (M ++ B))]) ++ B)
      by (now rewrite <- app_assoc).
    rewrite add_between; simpl.
    + now rewrite <- app_assoc.
    + apply Forall_app; split.
      * eapply Forall_impl; [|exact HA]. unfold below. intros q H1.
        apply ek_ltb_leb. eapply ek_ltb_trans; eassumption.
      * constructor; [|constructor]. simpl. now apply ek_ltb_leb.
    + exact HB.
  - rewrite add_between; simpl; trivial.
    eapply Forall_impl; [|exact HA]. unfold below. intros q H1.
    apply ek_ltb_leb. eapply ek_ltb_trans; eassumption.
Qed.

End Assignment.

(** ** The container invariant *)

Section Invariant.
Context {V : Type}.
Implicit Types (p q : Pair V) (l A M B R : list (Pair V)).
Implicit Types (m : SliceMap V) (v old : option V).

Lemma sorted_app_iff A B :
  sorted (A ++ B) <->
  sorted A /\ sorted B /\ Forall (fun a => Forall (key_lt a) B) A.
Proof.
  unfold sorted. induction A as [|a A IH]; simpl.
  - split; [intros H; repeat split; trivial; constructor | tauto].
  - split.
    + intros H. apply StronglySorted_inv in H as [H1 H2].
      apply IH in H1 as (HA & HB & HAB). apply Forall_app in H2 as [H2 H3].
      repeat split; trivial; constructor; trivial.
    + intros (HA & HB & HAB). apply StronglySorted_inv in HA as [HA Ha].
      inversion HAB; subst. constructor.
      * apply IH; tauto.
      * apply Forall_app; tauto.
Qed.

Lemma sorted_insert A k v B :
  sorted A -> sorted B -> Forall (below k) A -> Forall (above k) B ->
  sorted (A ++ mkPair k v :: B).
Proof.
  intros HA HB Hlo Hhi. apply sorted_app_iff. repeat split; trivial.
  - constructor; trivial.
  - eapply Forall_impl; [|exact Hlo]. intros a Ha. constructor; trivial.
    eapply Forall_impl; [|exact Hhi]. unfold above, below, key_lt in *.
    intros b Hb. eapply ek_ltb_trans; eassumption.
Qed.

(** A sorted list is cut in two by any test that is closed downwards. *)
Lemma sorted_cut (f : ekey -> bool) l :
  (forall a b, ek_ltb a b = true -> f b = true -> f a = true) ->
  sorted l ->
  exists A R, l = A ++ R
    /\ Forall (fun q => f (up_to_key q) = true) A
    /\ Forall (fun q => f (up_to_key q) = false) R.
Proof.
  intros Hf. induction 1 as [|q t Ht IH Hq].
  - exists [], []. repeat split; constructor.
  - destruct (f (up_to_key q)) eqn:E.
    + destruct IH as (A & R & -> & HA & HR).
      exists (q :: A), R. repeat split; trivial. now constructor.
    + exists [], (q :: t). repeat split; [constructor|].
      constructor; trivial.
      eapply Forall_impl; [|exact Hq]. intros b Hb.
      destruct (f (up_to_key b)) eqn:Eb; trivial.
      rewrite (Hf _ _ Hb Eb) in E. discriminate.
Qed.

(** The three groups of entries an assignment distinguishes. *)
Lemma sorted_split3 lo hi l :
  sorted l ->
  exists A M B, l = A ++ M ++ B
    /\ Forall (below lo) A /\ Forall (within lo hi) M /\ Forall (above hi) B.
Proof.
  intros Hl.
  destruct (sorted_cut (fun k => ek_ltb k lo) l) as (A & R & -> & HA & HR);
    trivial.
  { intros a b H1 H2. eapply ek_ltb_trans; eassumption. }
  apply sorted_app_iff in Hl as (_ & HsR & _).
  destruct (sorted_cut (fun k => ek_leb k hi) R) as (M & B & -> & HM & HB);
    trivial.
  { intros a b H1 H2. apply ek_ltb_leb. eapply ek_ltb_leb_trans; eassumption. }
  exists A, M, B. repeat split; trivial.
  - apply Forall_app in HR as [HR _].
    rewrite Forall_forall in *. intros q Hq. split.
    + apply ek_ltb_false. now apply HR.
    + now apply HM.
  - eapply Forall_impl; [|exact HB]. intros q Hq. now apply ek_leb_false.
Qed.

Lemma wf_sentinel : wf [mkPair PInf (@None V)].
Proof.
  repeat split.
  - repeat constructor.
  - now constructor.
  - now repeat constructor.
Qed.

Lemma wf_assigned A M B lo hi old v :
  ek_ltb lo hi = true ->
  Forall (below lo) A -> Forall (within lo hi) M -> Forall (above hi) B ->
  wf (A ++ M ++ B) ->
  wf (A ++ start_entry lo old ++ mkPair hi v :: B).
Proof.
  intros Hlt HA HM HB (Hs & Hinf & Hn).
  apply sorted_app_iff in Hs as (HsA & HsMB & _).
  apply sorted_app_iff in HsMB as (_ & HsB & _).
  apply Forall_app in Hn as [HnA Hn]. apply Forall_app in Hn as [_ HnB].
  assert (HA' : Forall (below hi) A).
  { eapply Forall_impl; [|exact HA]. unfold below. intros q Hq.
    eapply ek_ltb_trans; eassumption. }
  assert (HB' : Forall (above lo) B).
  { eapply Forall_impl; [|exact HB]. unfold above. intros q Hq.
    eapply ek_ltb_trans; eassumption. }
  repeat split.
  - unfold start_entry. destruct (ek_ltb NInf lo); simpl.
    + change (A ++ mkPair lo old :: mkPair hi v :: B)
        with (A ++ [mkPair lo old] ++ mkPair hi v :: B).
      rewrite app_assoc. apply sorted_insert; trivial.
      * apply sorted_insert; trivial; constructor.
      * apply Forall_app; split; trivial. now repeat constructor.
    + now apply sorted_insert.
  - apply Exists_app. right. apply Exists_app. right.
    apply Exists_app in Hinf as [Hinf | Hinf].
    { exfalso. apply Exists_exists in Hinf as (q & Hq & E).
      rewrite Forall_forall in HA. specialize (HA q Hq).
      unfold below in HA. rewrite E in HA. ek_solve. }
    apply Exists_app in Hinf as [Hinf | Hinf].
    + apply Exists_exists in Hinf as (q & Hq & E).
      rewrite Forall_forall in HM. destruct (HM q Hq) as [_ H2].
      rewrite E in H2. apply ek_PInf_leb in H2. subst hi. now constructor.
    + now apply Exists_cons_tl.
  - apply Forall_app; split; trivial. apply Forall_app; split.
    + unfold start_entry. destruct (ek_ltb NInf lo) eqn:E; repeat constructor.
      exact E.
    + constructor; trivial. unfold above. simpl. clear - Hlt. ek_solve.
Qed.

(** On a well-formed list an assignment either does nothing (empty
    range) or rebuilds the list around the three groups. *)
Lemma setitem_cases m s v :
  wf (data m) -> step_ok s = true ->
  (ek_ltb (slice_lo s) (slice_hi s) = false /\ setitem m s v = Ok m)
  \/ (ek_ltb (slice_lo s) (slice_hi s) = true /\
      exists A M B,
        data m = A ++ M ++ B
        /\ Forall (below (slice_lo s)) A
        /\ Forall (within (slice_lo s) (slice_hi s)) M
        /\ Forall (above (slice_hi s)) B
        /\ setitem m s v
           = Ok (mkSliceMap
                   (A ++ start_entry (slice_lo s) (kept_value (M ++ B))
                      ++ mkPair (slice_hi s) v :: B) (include m))).
Proof.
  intros Hwf Hstep.
  destruct (ek_ltb (slice_lo s) (slice_hi s)) eqn:Hlt.
  - right. split; trivial.
    destruct (sorted_split3 (slice_lo s) (slice_hi s) (data m) (proj1 Hwf))
      as (A & M & B & E & HA & HM & HB).
    exists A, M, B. repeat split; trivial.
    destruct m as [l inc]. simpl in *. subst l.
    now apply setitem_split.
  - left. split; trivial. unfold setitem. rewrite Hstep. simpl.
    unfold ek_leb. now rewrite Hlt.
Qed.

Lemma setitem_wf m s v m' :
  wf (data m) -> setitem m s v = Ok m' ->
  wf (data m') /\ include m' = include m.
Proof.
  intros Hwf H.
  destruct (step_ok s) eqn:Hstep.
  - destruct (setitem_cases m s v Hwf Hstep)
      as [[_ E] | [Hlt (A & M & B & El & HA & HM & HB & E)]];
      rewrite E in H; injection H as <-; [now split|].
    simpl. split; trivial. rewrite El in Hwf.
    now apply wf_assigned with (M := M).
  - unfold setitem in H. rewrite Hstep in H. discriminate.
Qed.

Lemma assigns_wf calls : forall m m',
  wf (data m) -> assigns m calls = Ok m' ->
  wf (data m') /\ include m' = include m.
Proof.
  induction calls as [|[s v] rest IH]; simpl; intros m m' Hwf H.
  - injection H as <-. now split.
  - destruct (setitem m s v) as [m1|e] eqn:E; simpl in H; [|discriminate].
    destruct (setitem_wf _ _ _ _ Hwf E) as [Hwf1 Hinc1].
    destruct (IH _ _ Hwf1 H) as [Hwf' Hinc']. split; congruence.
Qed.

Lemma init_wf inc m :
  init inc = Ok m ->
  wf (data m) /\ include m = inc /\ (inc = "start"%string \/ inc = "end"%string).
Proof.
  unfold init. intros H.
  destruct (String.eqb inc "start" || String.eqb inc "end")%bool eqn:E;
    [|discriminate].
  injection H as <-. simpl. repeat split; try apply wf_sentinel.
  apply orb_true_iff in E as [E | E]; apply String.eqb_eq in E; auto.
Qed.

Lemma reachable_wf m :
  reachable m ->
  wf (data m) /\ (include m = "start"%string \/ include m = "end"%string).
Proof.
  intros (inc & calls & m0 & Hinit & Hrun).
  apply init_wf in Hinit as (Hwf0 & Hinc0 & Hinc).
  destruct (assigns_wf _ _ _ Hwf0 Hrun) as [Hwf Hi].
  split; trivial. rewrite Hi, Hinc0. exact Hinc.
Qed.

Lemma reachable_setitem m s v m' :
  reachable m -> setitem m s v = Ok m' -> reachable m'.
Proof.
  intros (inc & calls & m0 & Hinit & Hrun) H.
  exists inc, (calls ++ [(s, v)]), m0. split; trivial.
  clear Hinit. revert m0 Hrun.
  induction calls as [|[s1 v1] rest IH]; simpl; intros m0 Hrun.
  - injection Hrun as ->. now rewrite H.
  - destruct (setitem m0 s1 v1) as [m1|e]; simpl in *; [|discriminate].
    now apply IH.
Qed.

End Invariant.


(** ** Point queries *)

Section Queries.
Context {V : Type}.
Implicit Types (p q : Pair V) (l A M B R : list (Pair V)).
Implicit Types (m : SliceMap V) (v old : option V).

Lemma search_op_scan m k l :
  search_op m (mkPair k None) l = scan (passes (include m) k) l.
Proof.
  unfold search_op, passes. destruct (String.eqb (include m) "start").
  - apply bisect_right_scan.
  - apply bisect_left_scan.
Qed.

Lemma passes_below inc k q : below k q -> passes inc k q = true.
Proof.
  unfold below, passes. intros H.
  destruct (String.eqb inc "start"); trivial. now apply ek_ltb_leb.
Qed.

Lemma passes_above inc k q : above k q -> passes inc k q = false.
Proof.
  unfold above, passes. intros H.
  destruct (String.eqb inc "start"); [now apply ek_leb_false|].
  apply ek_ltb_false. now apply ek_ltb_leb.
Qed.

Lemma getitem_point m z :
  getitem m (Scalar (Fin z))
  = match owner (include m) (Fin z) (data m) with
    | Some p => Ok (RValue (value p))
    | None => Raise IndexError
    end.
Proof.
  unfold getitem, getidx, owner.
  rewrite search_op_scan, nth_scan_find.
  now destruct (find _ _).
Qed.

Lemma owner_app inc k A R :
  owner inc k (A ++ R)
  = match owner inc k A with
    | Some p => Some p
    | None => owner inc k R
    end.
Proof.
  unfold owner. induction A as [|a A IH]; simpl; [reflexivity|].
  now destruct (negb (passes inc k a)).
Qed.

Lemma owner_below inc k A : Forall (below k) A -> owner inc k A = None.
Proof.
  unfold owner. induction 1 as [|a A Ha _ IH]; simpl; [reflexivity|].
  now rewrite (passes_below inc _ _ Ha).
Qed.

Lemma owner_above inc k q R : above k q -> owner inc k (q :: R) = Some q.
Proof.
  unfold owner. intros H. simpl. now rewrite (passes_above inc _ _ H).
Qed.

Lemma below_trans k k' A :
  ek_ltb k k' = true -> Forall (below k) A -> Forall (below k') A.
Proof.
  intros Hk. apply Forall_impl. unfold below. intros q Hq.
  eapply ek_ltb_trans; eassumption.
Qed.

Lemma above_trans k k' B :
  ek_ltb k' k = true -> Forall (above k) B -> Forall (above k') B.
Proof.
  intros Hk. apply Forall_impl. unfold above. intros q Hq.
  eapply ek_ltb_trans; eassumption.
Qed.

Lemma within_below lo hi k M :
  ek_ltb hi k = true -> Forall (within lo hi) M -> Forall (below k) M.
Proof.
  intros Hk. apply Forall_impl. unfold within, below. intros q [_ Hq].
  eapply ek_leb_ltb_trans; eassumption.
Qed.

Lemma within_above lo hi k M :
  ek_ltb k lo = true -> Forall (within lo hi) M -> Forall (above k) M.
Proof.
  intros Hk. apply Forall_impl. unfold within, above. intros q [Hq _].
  eapply ek_ltb_leb_trans; eassumption.
Qed.

Lemma start_entry_within lo hi old :
  ek_ltb lo hi = true -> Forall (within lo hi) (start_entry lo old).
Proof.
  intros Hlt. unfold start_entry. destruct (ek_ltb NInf lo); constructor.
  - unfold within. simpl. clear - Hlt. split; ek_solve.
  - constructor.
Qed.

(** The sentinel is not below any finite bound. *)
Lemma sentinel_not_below k A :
  ek_ltb k PInf = true \/ k = PInf -> Forall (below k) A ->
  Exists (fun q => up_to_key q = PInf) A -> False.
Proof.
  intros Hk HA HE. apply Exists_exists in HE as (q & Hq & E).
  rewrite Forall_forall in HA. specialize (HA q Hq).
  unfold below in HA. rewrite E in HA. destruct Hk; ek_solve.
Qed.

(** A point query on a well-formed list finds an entry. *)
Lemma owner_wf inc z l :
  wf l -> exists p, owner inc (Fin z) l = Some p.
Proof.
  intros (_ & HE & _). unfold owner.
  destruct (find (fun q => negb (passes inc (Fin z) q)) l) as [p|] eqn:E;
    [now exists p|].
  exfalso. apply Exists_exists in HE as (q & Hq & Hk).
  pose proof (find_none _ _ E q Hq) as H. simpl in H.
  rewrite passes_above in H; [discriminate|].
  unfold above. now rewrite Hk.
Qed.

End Queries.

(** ** Assignment followed by point queries *)

Lemma start_entry_below {V : Type} lo k (old : option V) :
  ek_ltb lo k = true -> Forall (below k) (start_entry lo old).
Proof.
  intros H. unfold start_entry. destruct (ek_ltb NInf lo); repeat constructor.
  exact H.
Qed.

(** C1: after a non-empty assignment, every finite key strictly inside the
    assigned interval maps to the assigned value, and every finite key
    strictly outside it maps to the value it had before. *)
Theorem C1_assign_then_get {V : Type} (m : SliceMap V) (s : slice) (v : option V) :
  reachable m ->
  step_ok s = true ->
  ek_lt (slice_lo s) (slice_hi s) ->
  exists m',
    setitem m s v = Ok m' /\
    forall z : Z,
      (ek_lt (slice_lo s) (Fin z) /\ ek_lt (Fin z) (slice_hi s) ->
       getitem m' (Scalar (Fin z)) = Ok (RValue v))
      /\ (ek_lt (Fin z) (slice_lo s) \/ ek_lt (slice_hi s) (Fin z) ->
          exists w, getitem m (Scalar (Fin z)) = Ok (RValue w)
                    /\ getitem m' (Scalar (Fin z)) = Ok (RValue w)).
Proof.
  intros Hr Hstep Hlt. unfold ek_lt in *.
  destruct (reachable_wf m Hr) as [Hwf _].
  destruct (setitem_cases m s v Hwf Hstep)
    as [[Hge _] | [_ (A & M & B & El & HA & HM & HB & E)]]; [congruence|].
  eexists. split; [exact E|]. intros z.
  rewrite !getitem_point. cbn [data include]. rewrite El in *.
  set (lo := slice_lo s) in *. set (hi := slice_hi s) in *.
  set (inc := include m). set (k := Fin z).
  split.
  - intros [H1 H2].
    rewrite owner_app, (owner_below inc k A) by (eapply below_trans; eassumption).
    rewrite owner_app, (owner_below inc k (start_entry lo _))
      by now apply start_entry_below.
    now rewrite owner_above.
  - intros [H1 | H1].
    + rewrite !owner_app. destruct (owner inc k A) as [p|] eqn:EA.
      { now exists (value p). }
      assert (Hne : Exists (fun q : Pair V => up_to_key q = PInf) (M ++ B)).
      { destruct Hwf as (_ & HE & _). apply Exists_app in HE as [HE | HE]; trivial.
        exfalso. apply (sentinel_not_below lo A); trivial.
        left. clear - Hlt. ek_solve. }
      assert (Hab : Forall (above k) (M ++ B)).
      { apply Forall_app; split.
        - eapply within_above; eassumption.
        - eapply above_trans; [|exact HB]. eapply ek_ltb_trans; eassumption. }
      rewrite <- owner_app.
      destruct (M ++ B) as [|r R]; [inversion Hne|].
      inversion Hab; subst. rewrite owner_above by assumption.
      exists (value r). split; trivial.
      unfold start_entry.
      replace (ek_ltb NInf lo) with true by (clear - H1; subst k; ek_solve).
      cbn [kept_value].
      now rewrite (owner_above inc k (mkPair lo (value r)) []) by exact H1.
    + destruct (owner_wf inc z _ Hwf) as [p Hp]. fold k in Hp.
      assert (HAk : Forall (below k) A).
      { eapply below_trans; [|exact HA]. eapply ek_ltb_trans; eassumption. }
      rewrite owner_app, (owner_below inc k A HAk) in Hp.
      rewrite owner_app, (owner_below inc k M) in Hp
        by (eapply within_below; eassumption).
      exists (value p).
      rewrite !owner_app, (owner_below inc k A HAk).
      rewrite (owner_below inc k M) by (eapply within_below; eassumption).
      rewrite (owner_below inc k (start_entry lo _))
        by (apply start_entry_below; eapply ek_ltb_trans; eassumption).
      change (mkPair hi v :: B) with ([mkPair hi v] ++ B).
      rewrite owner_app, (owner_below inc k [mkPair hi v])
        by (repeat constructor; exact H1).
      now rewrite Hp.
Qed.

Lemma C1_witness :
  exists m',
    setitem (mkSliceMap [mkPair PInf None] "start") (sl (Fin 0) (Fin 10))
            (Some "a"%string) = Ok m' /\
    forall z : Z,
      (ek_lt (Fin 0) (Fin z) /\ ek_lt (Fin z) (Fin 10) ->
       getitem m' (Scalar (Fin z)) = Ok (RValue (Some "a"%string)))
      /\ (ek_lt (Fin z) (Fin 0) \/ ek_lt (Fin 10) (Fin z) ->
          exists w,
            getitem (mkSliceMap [mkPair PInf None] "start") (Scalar (Fin z))
            = Ok (RValue w)
            /\ getitem m' (Scalar (Fin z)) = Ok (RValue w)).
Proof.
  apply (C1_assign_then_get (mkSliceMap [mkPair PInf None] "start")
           (sl (Fin 0) (Fin 10)) (Some "a"%string)).
  - exists "start"%string, [], (mkSliceMap [mkPair PInf None] "start").
    split; reflexivity.
  - reflexivity.
  - reflexivity.
Defined.

(** C6: in every reachable state a point query at a finite key stops at an
    index below the number of entries and returns a value. *)
Theorem C6_point_query_total {V : Type} (m : SliceMap V) (z : Z) :
  reachable m ->
  (search_op m (mkPair (Fin z) None) (data m) < length (data m))%nat
  /\ exists w, getitem m (Scalar (Fin z)) = Ok (RValue w).
Proof.
  intros Hr. destruct (reachable_wf m Hr) as [Hwf _]. split.
  - rewrite search_op_scan. apply scan_lt_length.
    destruct Hwf as (_ & HE & _).
    eapply Exists_impl; [|exact HE]. intros q Hq. simpl in Hq.
    apply passes_above. unfold above. now rewrite Hq.
  - rewrite getitem_point.
    destruct (owner_wf (include m) z _ Hwf) as [p ->]. now exists (value p).
Qed.

Lemma C6_witness :
  (search_op (mkSliceMap [mkPair PInf (@None string)] "end")
             (mkPair (Fin 7) None) [mkPair PInf None] < 1)%nat
  /\ exists w,
       getitem (mkSliceMap [mkPair PInf (@None string)] "end") (Scalar (Fin 7))
       = Ok (RValue w).
Proof.
  apply (C6_point_query_total (mkSliceMap [mkPair PInf (@None string)] "end") 7).
  exists "end"%string, [], (mkSliceMap [mkPair PInf None] "end").
  split; reflexivity.
Defined.

(** ** The documented examples *)

(** C3: after [m[0:10] = "a"], [m[10:20] = "b"], [m[5:15] = "c"] on a fresh
    map, [export()] is the five listed triples and [len(m)] is 4, for
    either inclusion policy. *)
Theorem C3_split_example (inc : string) :
  inc = "start"%string \/ inc = "end"%string ->
  exists m,
    build inc abc_calls = Ok m
    /\ export m
       = Ok [ (NInf, Fin 0, None);
              (Fin 0, Fin 5, Some "a"%string);
              (Fin 5, Fin 15, Some "c"%string);
              (Fin 15, Fin 20, Some "b"%string);
              (Fin 20, PInf, None) ]
    /\ len m = 4.
Proof.
  intros [-> | ->]; eexists; repeat split; reflexivity.
Qed.

Lemma C3_witness :
  exists m,
    build "start" abc_calls = Ok m
    /\ export m
       = Ok [ (NInf, Fin 0, None);
              (Fin 0, Fin 5, Some "a"%string);
              (Fin 5, Fin 15, Some "c"%string);
              (Fin 15, Fin 20, Some "b"%string);
              (Fin 20, PInf, None) ]
    /\ len m = 4.
Proof.
  apply (C3_split_example "start"). left. reflexivity.
Defined.

(** C4: after [m[0:10] = "a"] and [m[10:20] = "b"] on a fresh map, [m[10]]
    is ["b"] under policy [start] and ["a"] under policy [end]. *)
Theorem C4_boundary_owner :
  (m <- build "start" (firstn 2 abc_calls) ;; getitem m (Scalar (Fin 10)))
  = Ok (RValue (Some "b"%string))
  /\ (m <- build "end" (firstn 2 abc_calls) ;; getitem m (Scalar (Fin 10)))
     = Ok (RValue (Some "a"%string)).
Proof. split; reflexivity. Qed.

(** ** Empty ranges *)

(** C8: an assignment whose lower bound is not below its upper bound raises
    nothing and leaves the container, hence its export, as it was. *)
Theorem C8_empty_range_noop {V : Type} (m : SliceMap V) (s : slice) (v : option V) :
  step_ok s = true ->
  ek_le (slice_hi s) (slice_lo s) ->
  exists m', setitem m s v = Ok m' /\ m' = m /\ export m' = export m.
Proof.
  intros Hstep Hle. exists m. unfold setitem. rewrite Hstep. simpl.
  unfold ek_le in Hle. rewrite Hle. repeat split.
Qed.

Lemma C8_witness :
  exists m',
    setitem (mkSliceMap [mkPair PInf None] "start") (sl (Fin 10) (Fin 10))
            (Some "x"%string) = Ok m'
    /\ m' = mkSliceMap [mkPair PInf None] "start"
    /\ export m' = export (mkSliceMap [mkPair PInf (@None string)] "start").
Proof.
  apply (C8_empty_range_noop (mkSliceMap [mkPair PInf None] "start")
           (sl (Fin 10) (Fin 10)) (Some "x"%string)); reflexivity.
Defined.

(** ** Idempotence *)

Lemma build_reachable {V : Type} inc calls (m : SliceMap V) :
  build inc calls = Ok m -> reachable m.
Proof.
  unfold build. intros H.
  destruct (init inc) as [m0|e] eqn:E; simpl in H; [|discriminate].
  now exists inc, calls, m0.
Qed.

(** C5: assigning the same value to the same range twice in a row gives the
    same container, hence the same export, as assigning it once. *)
Theorem C5_assign_idempotent {V : Type} (m : SliceMap V) (s : slice) (v : option V) :
  reachable m ->
  step_ok s = true ->
  exists m1 m2,
    setitem m s v = Ok m1
    /\ setitem m1 s v = Ok m2
    /\ export m2 = export m1.
Proof.
  intros Hr Hstep. destruct (reachable_wf m Hr) as [Hwf _].
  destruct (setitem_cases m s v Hwf Hstep)
    as [[_ E] | [Hlt (A & M & B & El & HA & HM & HB & E)]].
  - exists m, m. now repeat split.
  - set (lo := slice_lo s) in *. set (hi := slice_hi s) in *.
    set (S0 := start_entry lo (kept_value (M ++ B))) in *.
    exists (mkSliceMap (A ++ S0 ++ mkPair hi v :: B) (include m)).
    exists (mkSliceMap (A ++ S0 ++ mkPair hi v :: B) (include m)).
    split; [exact E|]. split; [|reflexivity].
    replace (A ++ S0 ++ mkPair hi v :: B)
      with (A ++ (S0 ++ [mkPair hi v]) ++ B) at 1
      by (now rewrite <- (app_assoc S0)).
    rewrite setitem_split; trivial.
    + fold lo hi. do 3 f_equal.
      unfold S0, start_entry. now destruct (ek_ltb NInf lo).
    + apply Forall_app; split.
      * now apply start_entry_within.
      * repeat constructor; simpl; fold lo hi; clear - Hlt; ek_solve.
Qed.

Lemma C5_witness :
  exists m1 m2,
    setitem (mkSliceMap [mkPair PInf None] "start") (sl (Fin 0) (Fin 10))
            (Some "a"%string) = Ok m1
    /\ setitem m1 (sl (Fin 0) (Fin 10)) (Some "a"%string) = Ok m2
    /\ export m2 = export m1.
Proof.
  apply (C5_assign_idempotent (mkSliceMap [mkPair PInf None] "start")
           (sl (Fin 0) (Fin 10)) (Some "a"%string)).
  - exists "start"%string, [], (mkSliceMap [mkPair PInf None] "start").
    split; reflexivity.
  - reflexivity.
Defined.

(** ** The partition invariant *)

Section Partition.
Context {V : Type}.
Implicit Types (p q : Pair V) (l A M B R : list (Pair V)).
Implicit Types (m : SliceMap V).

Lemma sorted_keys l : sorted l -> StronglySorted ek_lt (map up_to_key l).
Proof.
  induction 1 as [|q t _ IH Hq]; simpl; constructor; trivial.
  apply Forall_map. exact Hq.
Qed.

Lemma strictly_sorted_NoDup (ks : list ekey) :
  StronglySorted ek_lt ks -> NoDup ks.
Proof.
  induction 1 as [|a t _ IH Ha]; constructor; trivial.
  intros Hin. rewrite Forall_forall in Ha. specialize (Ha a Hin).
  unfold ek_lt in Ha. now rewrite ek_ltb_irrefl in Ha.
Qed.

Lemma combine_tl_triples q l :
  map (fun pp : Pair V * Pair V =>
         (up_to_key (fst pp), up_to_key (snd pp), value (snd pp)))
      (combine (q :: l) l)
  = triples_from (up_to_key q) l.
Proof.
  revert q. induction l as [|r t IH]; intros q; simpl; [reflexivity|].
  f_equal. apply IH.
Qed.

Lemma export_triples m q l :
  data m = q :: l -> export m = Ok (triples_from NInf (data m)).
Proof.
  intros E. unfold export, getidx. rewrite E.
  cbn [nth_error bind tl triples_from]. now rewrite combine_tl_triples.
Qed.

Lemma triples_chain l : forall lo front t1 t2 back,
  triples_from lo l = front ++ t1 :: t2 :: back -> t_upper t1 = t_lower t2.
Proof.
  induction l as [|q t IH]; intros lo front t1 t2 back H; simpl in H.
  - now destruct front.
  - destruct front as [|x front]; simpl in H.
    + injection H as <- H. destruct t as [|r t]; simpl in H; [discriminate|].
      now injection H as <- _.
    + injection H as _ H. eapply IH. exact H.
  Qed.

Lemma triples_last A : forall lo q,
  exists front t,
    triples_from lo (A ++ [q]) = front ++ [t] /\ t_upper t = up_to_key q.
Proof.
  induction A as [|a A IH]; intros lo q; simpl.
  - now exists [], (lo, up_to_key q, value q).
  - destruct (IH (up_to_key a) q) as (front & t & -> & Ht).
    now exists ((lo, up_to_key a, value a) :: front), t.
Qed.

Lemma triples_nonempty l : forall lo,
  sorted l -> Forall (above lo) l ->
  Forall (fun t => ek_lt (t_lower t) (t_upper t)) (triples_from lo l).
Proof.
  induction l as [|q t IH]; intros lo Hs Hlo; simpl; constructor.
  - inversion Hlo; subst. assumption.
  - apply StronglySorted_inv in Hs as [Hs Hq]. now apply IH.
Qed.

(** In a well-formed list the sentinel comes last and no other entry is
    at [+inf]. *)
Lemma wf_last l :
  wf l ->
  exists A w, l = A ++ [mkPair PInf w] /\ Forall (below PInf) A.
Proof.
  intros (Hs & HE & _).
  apply Exists_exists in HE as (q & Hin & Hq).
  apply in_split in Hin as (A & B & ->).
  apply sorted_app_iff in Hs as (_ & HsB & Hcross).
  apply StronglySorted_inv in HsB as [_ Hb].
  destruct B as [|b B].
  - exists A, (value q). split.
    + destruct q as [kq vq]. simpl in *. now subst kq.
    + eapply Forall_impl; [|exact Hcross]. intros a Ha.
      inversion Ha; subst. unfold key_lt, below in *. now rewrite <- Hq.
  - exfalso. inversion Hb; subst. unfold key_lt in *. rewrite Hq in *.
    destruct (up_to_key b); discriminate.
Qed.

Lemma below_PInf_not_inf A :
  Forall (below PInf) A -> Forall (fun q => is_inf q = false) A.
Proof.
  apply Forall_impl. unfold below, is_inf. intros q Hq.
  destruct (up_to_key q); trivial. discriminate.
Qed.

Lemma filter_none (f : Pair V -> bool) A :
  Forall (fun q => f q = false) A -> filter f A = [].
Proof.
  induction 1 as [|a A Ha _ IH]; simpl; [reflexivity|]. now rewrite Ha.
Qed.

Lemma wf_one_inf l : wf l -> length (filter is_inf l) = 1%nat.
Proof.
  intros Hwf. destruct (wf_last l Hwf) as (A & w & -> & HA).
  rewrite filter_app, (filter_none is_inf A) by now apply below_PInf_not_inf.
  reflexivity.
Qed.

End Partition.

Lemma assigns_total {V : Type} (calls : list (slice * option V)) :
  forall m : SliceMap V,
    wf (data m) ->
    Forall (fun c => step_ok (fst c) = true) calls ->
    exists m', assigns m calls = Ok m'.
Proof.
  induction calls as [|[s v] rest IH]; intros m Hwf Hc; simpl.
  - now exists m.
  - inversion Hc as [|c cs Hs Hrest]; subst. simpl in Hs.
    assert (E : exists m1, setitem m s v = Ok m1).
    { destruct (setitem_cases m s v Hwf Hs)
        as [[_ E] | [_ (A & M & B & _ & _ & _ & _ & E)]]; eauto. }
    destruct E as [m1 E]. rewrite E. simpl.
    apply IH; trivial. eapply setitem_wf; eassumption.
Qed.

(** C2: any sequence of assignments on a fresh map runs to the end, and
    afterwards the keys are strictly ascending without duplicates, and the
    exported triples start at [-inf], end at [+inf], chain (each upper bound
    is the next lower bound) and are non-empty intervals, so they neither
    leave gaps nor overlap. *)
Theorem C2_partition_invariant {V : Type} (inc : string)
    (calls : list (slice * option V)) :
  inc = "start"%string \/ inc = "end"%string ->
  Forall (fun c => step_ok (fst c) = true) calls ->
  exists m,
    build inc calls = Ok m
    /\ StronglySorted ek_lt (map up_to_key (data m))
    /\ NoDup (map up_to_key (data m))
    /\ exists ts,
         export m = Ok ts
         /\ (exists t rest, ts = t :: rest /\ t_lower t = NInf)
         /\ (exists front t, ts = front ++ [t] /\ t_upper t = PInf)
         /\ (forall front t1 t2 back,
               ts = front ++ t1 :: t2 :: back -> t_upper t1 = t_lower t2)
         /\ Forall (fun t => ek_lt (t_lower t) (t_upper t)) ts.
Proof.
  intros Hinc Hcalls.
  assert (Hb : exists m : SliceMap V, build inc calls = Ok m).
  { unfold build, init.
    replace (String.eqb inc "start" || String.eqb inc "end")%bool with true
      by (now destruct Hinc; subst).
    cbn [bind]. apply assigns_total; trivial. apply wf_sentinel. }
  destruct Hb as [m Hb]. exists m. split; [exact Hb|].
  apply build_reachable in Hb.
  destruct (reachable_wf m Hb) as [Hwf _].
  pose proof (sorted_keys _ (proj1 Hwf)) as Hs.
  split; [exact Hs|]. split; [now apply strictly_sorted_NoDup|].
  exists (triples_from NInf (data m)).
  destruct (wf_last _ Hwf) as (A & w & El & _).
  destruct Hwf as (Hsd & _ & Hn).
  repeat split.
  - destruct (data m) as [|q l] eqn:E; [now destruct A|].
    rewrite <- E. now apply export_triples with (q := q) (l := l).
  - destruct (data m) as [|q l]; [now destruct A|].
    now exists (NInf, up_to_key q, value q), (triples_from (up_to_key q) l).
  - rewrite El. apply triples_last.
  - apply triples_chain.
  - now apply triples_nonempty.
Qed.

Lemma C2_witness :
  exists m,
    build "end" abc_calls = Ok m
    /\ StronglySorted ek_lt (map up_to_key (data m))
    /\ NoDup (map up_to_key (data m))
    /\ exists ts,
         export m = Ok ts
         /\ (exists t rest, ts = t :: rest /\ t_lower t = NInf)
         /\ (exists front t, ts = front ++ [t] /\ t_upper t = PInf)
         /\ (forall front t1 t2 back,
               ts = front ++ t1 :: t2 :: back -> t_upper t1 = t_lower t2)
         /\ Forall (fun t => ek_lt (t_lower t) (t_upper t)) ts.
Proof.
  apply (C2_partition_invariant "end" abc_calls).
  - right. reflexivity.
  - repeat constructor.
Defined.

(** ** The sentinel *)

Lemma above_PInf_nil {V : Type} (B : list (Pair V)) :
  Forall (above PInf) B -> B = [].
Proof.
  destruct 1 as [|b B Hb _]; [reflexivity|].
  unfold above in Hb. simpl in Hb. discriminate.
Qed.

(** C7 (as the code has it): every reachable state, and every state an
    assignment leads to, holds exactly one entry at [+inf], and it is the
    last one.  An assignment with a non-empty range up to [+inf] removes the
    sentinel in its removal loop, together with every other entry not below
    the lower bound: the loop keeps exactly the entries below the lower
    bound.  The assignment then adds a new entry at [+inf] that carries the
    assigned value. *)
Theorem C7_sentinel_replaced {V : Type} (m : SliceMap V) :
  reachable m ->
  length (filter is_inf (data m)) = 1%nat
  /\ (exists A w, data m = A ++ [mkPair PInf w])
  /\ (forall s v m',
        setitem m s v = Ok m' -> length (filter is_inf (data m')) = 1%nat)
  /\ (forall s v,
        step_ok s = true -> slice_hi s = PInf -> ek_lt (slice_lo s) PInf ->
        exists old kept removed,
          data m = kept ++ removed
          /\ Forall (below (slice_lo s)) kept
          /\ Forall (fun q => ek_le (slice_lo s) (up_to_key q)) removed
          /\ (exists R0 w, removed = R0 ++ [mkPair PInf w])
          /\ old = kept_value removed
          /\ remove_covered (data m) (slice_lo s) PInf = Ok (old, kept)
          /\ filter is_inf kept = []
          /\ setitem m s v
             = Ok (mkSliceMap
                     (kept ++ start_entry (slice_lo s) old ++ [mkPair PInf v])
                     (include m))).
Proof.
  intros Hr. destruct (reachable_wf m Hr) as [Hwf _]. repeat split.
  - now apply wf_one_inf.
  - destruct (wf_last _ Hwf) as (A & w & E & _). now exists A, w.
  - intros s v m' H. apply wf_one_inf. eapply setitem_wf; eassumption.
  - intros s v Hstep Hhi Hlt. unfold ek_lt in Hlt.
    destruct (sorted_split3 (slice_lo s) PInf (data m) (proj1 Hwf))
      as (A & M & B & E & HA & HM & HB).
    pose proof (above_PInf_nil B HB) as ->. rewrite app_nil_r in E.
    exists (kept_value M), A, M. repeat split; trivial.
    + eapply Forall_impl; [|exact HM]. now intros q [Hq _].
    + destruct (wf_last _ Hwf) as (X & w & EX & _). rewrite E in EX.
      destruct M as [|x M'] using rev_ind.
      * exfalso. rewrite app_nil_r in EX. subst A.
        apply Forall_app in HA as [_ HA]. inversion HA as [|? ? Hs _]; subst.
        unfold below in Hs. simpl in Hs. destruct (slice_lo s); discriminate.
      * rewrite app_assoc in EX. apply app_inj_tail in EX as [_ ->].
        now exists M', w.
    + rewrite E. rewrite <- (app_nil_r M) at 1.
      rewrite remove_covered_split; trivial. now rewrite !app_nil_r.
    + apply filter_none, below_PInf_not_inf.
      eapply below_trans; eassumption.
    + destruct m as [l inc]. simpl in *. subst l.
      rewrite <- (app_nil_r M) at 1.
      rewrite setitem_split; rewrite ?Hhi; trivial.
      now rewrite !app_nil_r.
Qed.

Lemma C7_witness :
  length (filter is_inf [mkPair PInf (@None string)]) = 1%nat
  /\ (exists A w, [mkPair PInf (@None string)] = A ++ [mkPair PInf w])
  /\ (forall s v m',
        setitem (mkSliceMap [mkPair PInf (@None string)] "start") s v = Ok m' ->
        length (filter is_inf (data m')) = 1%nat)
  /\ (forall s v,
        step_ok s = true -> slice_hi s = PInf -> ek_lt (slice_lo s) PInf ->
        exists old kept removed,
          [mkPair PInf (@None string)] = kept ++ removed
          /\ Forall (below (slice_lo s)) kept
          /\ Forall (fun q => ek_le (slice_lo s) (up_to_key q)) removed
          /\ (exists R0 w, removed = R0 ++ [mkPair PInf w])
          /\ old = kept_value removed
          /\ remove_covered [mkPair PInf (@None string)] (slice_lo s) PInf
             = Ok (old, kept)
          /\ filter is_inf kept = []
          /\ setitem (mkSliceMap [mkPair PInf (@None string)] "start") s v
             = Ok (mkSliceMap
                     (kept ++ start_entry (slice_lo s) old ++ [mkPair PInf v])
                     "start")).
Proof.
  apply (C7_sentinel_replaced (mkSliceMap [mkPair PInf (@None string)] "start")).
  exists "start"%string, [], (mkSliceMap [mkPair PInf None] "start").
  split; reflexivity.
Defined.

(** C7 as stated fails: on a fresh map, [m[0:] = "x"] runs its removal loop
    on the sentinel itself, leaving an empty list, and then adds two new
    entries. *)
Lemma C7_counterexample :
  exists m0 : SliceMap string,
    build "start" [] = Ok m0
    /\ data m0 = [mkPair PInf None]
    /\ bisect_left (mkPair (Fin 0) None) (data m0) = 0%nat
    /\ bisect_right (mkPair PInf None) (data m0) = 1%nat
    /\ remove_covered (data m0) (Fin 0) PInf = Ok (None, [])
    /\ setitem m0 (mkSlice (Some (Fin 0)) None None) (Some "x"%string)
       = Ok (mkSliceMap [mkPair (Fin 0) None; mkPair PInf (Some "x"%string)]
                        "start").
Proof. eexists. repeat split. Qed.

(** ** Range queries *)

Section RangeQueries.
Context {V : Type}.
Implicit Types (p q : Pair V) (l A M B R : list (Pair V)).
Implicit Types (m : SliceMap V).

Lemma skipn_nth l : forall i p,
  nth_error l i = Some p -> skipn i l = p :: skipn (S i) l.
Proof.
  induction l as [|a l IH]; intros [|i] p H; simpl in *; try discriminate.
  - now injection H as ->.
  - now apply IH.
Qed.

Lemma firstn_snoc l : forall j p,
  nth_error l j = Some p -> firstn (S j) l = firstn j l ++ [p].
Proof.
  induction l as [|a l IH]; intros [|j] p H; simpl in *; try discriminate.
  - now injection H as ->.
  - f_equal. now apply IH.
Qed.

Lemma nth_error_skipn_add l : forall i j,
  nth_error (skipn i l) j = nth_error l (i + j).
Proof.
  induction l as [|a l IH]; intros [|i] j; simpl; trivial.
  now destruct j.
Qed.

Lemma values_at_seq_ok l : forall n i,
  (i + n <= length l)%nat ->
  values_at l (seq i n) = Ok (map value (firstn n (skipn i l))).
Proof.
  induction n as [|n IH]; intros i Hi; simpl; [reflexivity|].
  unfold getidx. destruct (nth_error l i) as [p|] eqn:E.
  - simpl. rewrite IH by lia. simpl.
    now rewrite (skipn_nth l i p E).
  - apply nth_error_None in E. lia.
Qed.

Lemma values_at_seq_err l : forall n i,
  (i <= length l)%nat -> (length l < i + n)%nat ->
  values_at l (seq i n) = Raise IndexError.
Proof.
  induction n as [|n IH]; intros i H1 H2; [lia|]. simpl.
  unfold getidx. destruct (nth_error l i) as [p|] eqn:E; [|reflexivity].
  simpl. rewrite IH; trivial; [|lia].
  assert (i < length l)%nat by (apply nth_error_Some; congruence). lia.
Qed.

Lemma scan_mono (f g : Pair V -> bool) l :
  (forall q, f q = true -> g q = true) -> (scan f l <= scan g l)%nat.
Proof.
  intros H. induction l as [|a l IH]; simpl; [lia|].
  destruct (f a) eqn:E; [|lia]. rewrite (H a E). lia.
Qed.

Lemma scan_all_length (f : Pair V -> bool) l :
  Forall (fun q => f q = true) l -> scan f l = length l.
Proof.
  intros H. rewrite <- (app_nil_r l) at 1. rewrite scan_all by assumption.
  simpl. lia.
Qed.


Lemma passes_mono inc lo hi q :
  ek_leb lo hi = true -> passes inc lo q = true -> passes inc hi q = true.
Proof.
  unfold passes.
  destruct (String.eqb inc "start"); destruct (up_to_key q); intros; ek_solve.
Qed.

Lemma passes_down inc k p q :
  key_lt p q -> passes inc k q = true -> passes inc k p = true.
Proof.
  unfold passes, key_lt.
  destruct (String.eqb inc "start"); destruct (up_to_key p), (up_to_key q);
    intros; ek_solve.
Qed.

(** On a sorted list a search index counts the entries it walks past. *)
Lemma scan_passes_count inc k l :
  sorted l -> scan (passes inc k) l = length (filter (passes inc k) l).
Proof.
  induction 1 as [|q t Ht IH Hq]; simpl; [reflexivity|].
  destruct (passes inc k q) eqn:E; simpl; [now rewrite IH|].
  rewrite filter_none; [reflexivity|].
  eapply Forall_impl; [|exact Hq]. intros b Hb.
  destruct (passes inc k b) eqn:Eb; trivial.
  rewrite (passes_down _ _ _ _ Hb Eb) in E. discriminate.
Qed.

Lemma filter_length_split (f g : Pair V -> bool) l :
  (forall q, f q = true -> g q = true) ->
  length (filter g l)
  = (length (filter f l) + length (filter (fun q => negb (f q) && g q) l))%nat.
Proof.
  intros H. induction l as [|a l IH]; simpl; [reflexivity|].
  destruct (f a) eqn:E; simpl.
  - rewrite (H a E). simpl. now rewrite IH.
  - destruct (g a); simpl; lia.
Qed.

Lemma search_PInf_start m :
  include m = "start"%string ->
  search_op m (mkPair PInf None) (data m) = length (data m).
Proof.
  intros Hinc. rewrite search_op_scan. apply scan_all_length.
  apply Forall_forall. intros q _. unfold passes. rewrite Hinc. simpl.
  apply ek_leb_PInf.
Qed.

Lemma search_PInf_end m :
  wf (data m) -> include m = "end"%string ->
  S (search_op m (mkPair PInf None) (data m)) = length (data m).
Proof.
  intros Hwf Hinc. rewrite search_op_scan.
  destruct (wf_last _ Hwf) as (A & w & -> & HA).
  rewrite scan_split.
  - rewrite length_app. simpl. lia.
  - eapply Forall_impl; [|exact HA]. intros q Hq. unfold passes.
    rewrite Hinc. simpl. exact Hq.
  - repeat constructor. unfold passes. now rewrite Hinc.
Qed.

Lemma search_NInf m :
  wf (data m) -> search_op m (mkPair NInf None) (data m) = O.
Proof.
  intros (_ & _ & Hn). rewrite search_op_scan. apply scan_stop.
  eapply Forall_impl; [|exact Hn]. intros q. apply passes_above.
Qed.

Lemma search_le_length m k :
  (search_op m (mkPair k None) (data m) <= length (data m))%nat.
Proof. rewrite search_op_scan. apply scan_le_length. Qed.

(** A search for a bound other than [+inf] under [start] stops before the
    end of a well-formed list. *)
Lemma search_lt_length m k :
  wf (data m) -> (include m = "start"%string -> k <> PInf) ->
  include m = "start"%string \/ include m = "end"%string ->
  (search_op m (mkPair k None) (data m) < length (data m))%nat.
Proof.
  intros Hwf Hk Hinc.
  destruct k as [|z|].
  - rewrite search_NInf by assumption.
    destruct (wf_last _ Hwf) as (A & w & -> & _). rewrite length_app. simpl. lia.
  - rewrite search_op_scan. apply scan_lt_length.
    destruct Hwf as (_ & HE & _).
    eapply Exists_impl; [|exact HE]. intros q Hq. simpl in Hq.
    apply passes_above. unfold above. now rewrite Hq.
  - destruct Hinc as [Hinc | Hinc]; [now elim (Hk Hinc)|].
    pose proof (search_PInf_end m Hwf Hinc). lia.
Qed.

(** The point query at any bound reads the entry the search stops at. *)
Lemma getitem_scalar_search m k p :
  wf (data m) -> (include m = "start"%string -> k <> PInf) ->
  include m = "start"%string \/ include m = "end"%string ->
  nth_error (data m) (search_op m (mkPair k None) (data m)) = Some p ->
  getitem m (Scalar k) = Ok (RValue (value p)).
Proof.
  intros Hwf Hk Hinc Hp. destruct k as [|z|]; unfold getitem.
  - rewrite search_NInf in Hp by assumption. unfold getidx. now rewrite Hp.
  - unfold getidx. now rewrite Hp.
  - destruct Hinc as [Hinc | Hinc]; [now elim (Hk Hinc)|].
    pose proof (search_PInf_end m Hwf Hinc) as E.
    unfold getlast, getidx. destruct (data m) as [|a l]; [discriminate|].
    rewrite <- E. simpl Nat.pred. now rewrite Hp.
Qed.

End RangeQueries.

(** C9 (as the code has it): for a range query with both bounds given,
    and the upper bound other than [+inf] under policy [start], the second
    search index is below [len(data)] and the result is the tuple of the
    values at positions [i1..i2]; it has [i2 - i1 + 1] elements, or none
    when that number is not positive.  When moreover
    [lowerBound <= upperBound], then [i1 <= i2], the difference [i2 - i1]
    counts the stored boundaries between the two bounds, and the last
    element of the result is what the point query at the upper bound
    returns. *)
Theorem C9_range_query {V : Type} (m : SliceMap V) (lo hi : ekey)
    (step : option Z) :
  reachable m ->
  (include m = "start"%string -> hi <> PInf) ->
  let i1 := search_op m (mkPair lo None) (data m) in
  let i2 := search_op m (mkPair hi None) (data m) in
  (i2 < length (data m))%nat
  /\ exists t,
       getitem m (SliceKey (mkSlice (Some lo) (Some hi) step)) = Ok (RTuple t)
       /\ t = map value (firstn (i2 + 1 - i1) (skipn i1 (data m)))
       /\ Z.of_nat (length t) = Z.max 0 (Z.of_nat i2 - Z.of_nat i1 + 1)
       /\ (ek_le lo hi ->
           (i1 <= i2)%nat
           /\ (i2 - i1)%nat
              = length (filter (fun q => negb (passes (include m) lo q)
                                         && passes (include m) hi q) (data m))
           /\ exists front w,
                t = front ++ [w] /\ getitem m (Scalar hi) = Ok (RValue w)).
Proof.
  intros Hr Hhi i1 i2. destruct (reachable_wf m Hr) as [Hwf Hinc].
  assert (H1 : (i1 <= length (data m))%nat) by apply search_le_length.
  assert (H2 : (i2 < length (data m))%nat) by now apply search_lt_length.
  split; [exact H2|].
  exists (map value (firstn (i2 + 1 - i1) (skipn i1 (data m)))).
  repeat split.
  - unfold getitem, search_bound, range. cbn [slice_start slice_stop bind].
    fold i1 i2. now rewrite values_at_seq_ok by lia.
  - rewrite length_map, length_firstn, length_skipn. lia.
  - unfold i1, i2. rewrite !search_op_scan. apply scan_mono.
    intros q. now apply passes_mono.
  - unfold i1, i2. rewrite !search_op_scan.
    rewrite !scan_passes_count by apply Hwf.
    rewrite (filter_length_split (passes (include m) lo) (passes (include m) hi)).
    + lia.
    + intros q. now apply passes_mono.
  - assert (H12 : (i1 <= i2)%nat).
    { unfold i1, i2. rewrite !search_op_scan. apply scan_mono.
      intros q. now apply passes_mono. }
    destruct (nth_error (data m) i2) as [p|] eqn:Ep;
      [|apply nth_error_None in Ep; lia].
    exists (map value (firstn (i2 - i1) (skipn i1 (data m)))), (value p).
    split.
    + replace (i2 + 1 - i1)%nat with (S (i2 - i1)) by lia.
      rewrite (firstn_snoc _ _ p), map_app; [reflexivity|].
      rewrite nth_error_skipn_add.
      now replace (i1 + (i2 - i1))%nat with i2 by lia.
    + now apply getitem_scalar_search.
Qed.

Lemma C9_witness :
  let m := mkSliceMap [mkPair (Fin 0) None; mkPair (Fin 10) (Some "a"%string);
                       mkPair PInf None] "start" in
  let i1 := search_op m (mkPair (Fin (-3)) None) (data m) in
  let i2 := search_op m (mkPair (Fin 10) None) (data m) in
  (i2 < length (data m))%nat
  /\ exists t,
       getitem m (SliceKey (mkSlice (Some (Fin (-3))) (Some (Fin 10)) None))
       = Ok (RTuple t)
       /\ t = map value (firstn (i2 + 1 - i1) (skipn i1 (data m)))
       /\ Z.of_nat (length t) = Z.max 0 (Z.of_nat i2 - Z.of_nat i1 + 1)
       /\ (ek_le (Fin (-3)) (Fin 10) ->
           (i1 <= i2)%nat
           /\ (i2 - i1)%nat
              = length (filter (fun q => negb (passes (include m) (Fin (-3)) q)
                                         && passes (include m) (Fin 10) q)
                               (data m))
           /\ exists front w,
                t = front ++ [w] /\ getitem m (Scalar (Fin 10)) = Ok (RValue w)).
Proof.
  apply (C9_range_query
           (mkSliceMap [mkPair (Fin 0) None; mkPair (Fin 10) (Some "a"%string);
                        mkPair PInf None] "start")
           (Fin (-3)) (Fin 10) None).
  - apply (build_reachable "start" (firstn 1 abc_calls)). reflexivity.
  - intros _. discriminate.
Defined.

(** C9 as stated fails on two kinds of input.  With the bounds in
    descending order the indices are [i1 = 3] and [i2 = 0], so
    [i2 - i1 + 1] is negative, and the result is the empty tuple, which has
    no last element.  Under policy [start] with upper bound [+inf] the query
    raises [IndexError] instead of returning a tuple. *)
Lemma C9_counterexample :
  (exists m : SliceMap string,
     build "start" abc_calls = Ok m
     /\ search_op m (mkPair (Fin 17) None) (data m) = 3%nat
     /\ search_op m (mkPair (Fin (-5)) None) (data m) = 0%nat
     /\ getitem m (SliceKey (sl (Fin 17) (Fin (-5)))) = Ok (RTuple []))
  /\ (exists m : SliceMap string,
        build "start" [] = Ok m
        /\ getitem m (SliceKey (sl (Fin 0) PInf)) = Raise IndexError).
Proof. split; eexists; repeat split. Qed.

(** C10: in every reachable state a range query with upper bound [+inf]
    raises [IndexError] under policy [start], where the second index equals
    the number of entries; under policy [end] the second index is in bounds
    and the query returns a tuple. *)
Theorem C10_range_to_infinity {V : Type} (m : SliceMap V) (lo : ekey)
    (step : option Z) :
  reachable m ->
  (include m = "start"%string ->
   search_op m (mkPair PInf None) (data m) = length (data m)
   /\ getitem m (SliceKey (mkSlice (Some lo) (Some PInf) step))
      = Raise IndexError)
  /\ (include m = "end"%string ->
      (search_op m (mkPair PInf None) (data m) < length (data m))%nat
      /\ exists t,
           getitem m (SliceKey (mkSlice (Some lo) (Some PInf) step))
           = Ok (RTuple t)).
Proof.
  intros Hr. destruct (reachable_wf m Hr) as [Hwf _].
  pose proof (search_le_length m lo) as Hlo. split; intros Hinc.
  - pose proof (search_PInf_start m Hinc) as E. split; trivial.
    unfold getitem, search_bound, range. cbn [slice_start slice_stop bind].
    rewrite E, values_at_seq_err; trivial; lia.
  - pose proof (search_PInf_end m Hwf Hinc) as E. split; [lia|].
    eexists. unfold getitem, search_bound, range.
    cbn [slice_start slice_stop bind].
    rewrite values_at_seq_ok by lia. reflexivity.
Qed.

Lemma C10_witness :
  search_op (mkSliceMap [mkPair PInf (@None string)] "start")
            (mkPair PInf None) [mkPair PInf None] = 1%nat
  /\ getitem (mkSliceMap [mkPair PInf (@None string)] "start")
             (SliceKey (mkSlice (Some (Fin 0)) (Some PInf) None))
     = Raise IndexError.
Proof.
  refine (proj1 (C10_range_to_infinity
                   (mkSliceMap [mkPair PInf (@None string)] "start")
                   (Fin 0) None _) _).
  - exists "start"%string, [], (mkSliceMap [mkPair PInf None] "start").
    split; reflexivity.
  - reflexivity.
Defined.

(** * Further properties of the code *)

(** ** Point queries after an assignment, boundaries included *)

Ltac key_solve :=
  unfold passes, assigned, covered, below, above, within, key_lt,
    ek_lt, ek_le, ek_leb in *;
  repeat match goal with
         | q : Pair _ |- _ => destruct q as [? ?]
         end;
  cbn [up_to_key value] in *;
  repeat match goal with
         | |- context [String.eqb ?a ?b] => destruct (String.eqb a b)
         | H : context [String.eqb ?a ?b] |- _ => destruct (String.eqb a b)
         end;
  repeat match goal with k : ekey |- _ => destruct k end;
  simpl in *;
  rewrite ?andb_true_iff, ?andb_false_iff in *;
  rewrite ?negb_true_iff, ?negb_false_iff in *;
  rewrite ?Z.ltb_lt, ?Z.ltb_ge in *;
  try congruence; try lia; try (intuition (try congruence; try lia)).

Section Boundaries.
Context {V : Type}.
Implicit Types (p q : Pair V) (l A M B R : list (Pair V)).
Implicit Types (m : SliceMap V) (v old : option V).

Lemma owner_pass inc k A :
  Forall (fun q => passes inc k q = true) A -> owner inc k A = None.
Proof.
  unfold owner. induction 1 as [|a A Ha _ IH]; simpl; [reflexivity|].
  now rewrite Ha.
Qed.

Lemma owner_stop inc k q R :
  passes inc k q = false -> owner inc k (q :: R) = Some q.
Proof. unfold owner. intros H. simpl. now rewrite H. Qed.

Lemma assigned_pass_below inc lo hi k q :
  assigned inc lo hi k = true -> below lo q -> passes inc k q = true.
Proof. intros; key_solve. Qed.

Lemma assigned_pass_lo inc lo hi k old :
  assigned inc lo hi k = true -> passes inc k (mkPair lo old) = true.
Proof. intros; key_solve. Qed.

Lemma assigned_stop_hi inc lo hi k v :
  assigned inc lo hi k = true -> passes inc k (mkPair hi v) = false.
Proof. intros; key_solve. Qed.

Lemma pass_upto inc hi k v q :
  passes inc k (mkPair hi v) = true ->
  ek_leb (up_to_key q) hi = true -> passes inc k q = true.
Proof. intros; key_solve. Qed.

Lemma stop_from inc lo hi z v q :
  ek_ltb lo hi = true ->
  assigned inc lo hi (Fin z) = false ->
  passes inc (Fin z) (mkPair hi v) = false ->
  ek_leb lo (up_to_key q) = true -> passes inc (Fin z) q = false.
Proof. intros; key_solve. Qed.

Lemma before_lo_finite inc lo hi z (v : option V) :
  ek_ltb lo hi = true ->
  assigned inc lo hi (Fin z) = false ->
  passes inc (Fin z) (mkPair hi v) = false ->
  ek_ltb NInf lo = true.
Proof. intros; key_solve. Qed.

Lemma start_entry_pass inc lo k old :
  passes inc k (mkPair lo old) = true ->
  Forall (fun q => passes inc k q = true) (start_entry lo old).
Proof.
  intros H. unfold start_entry. destruct (ek_ltb NInf lo); repeat constructor.
  exact H.
Qed.

(** The list an assignment is decided on is not exhausted by the entries
    below the lower bound: the sentinel lies beyond them. *)
Lemma rest_nonempty lo hi A M B :
  ek_ltb lo hi = true -> wf (A ++ M ++ B) -> Forall (below lo) A ->
  exists r R, M ++ B = r :: R.
Proof.
  intros Hlt (_ & HE & _) HA.
  apply Exists_app in HE as [HE | HE].
  - exfalso. apply (sentinel_not_below lo A); trivial.
    left. clear - Hlt. ek_solve.
  - destruct (M ++ B) as [|r R]; [inversion HE | now exists r, R].
Qed.

End Boundaries.

(** X1: after a non-empty assignment of [lo:hi], a point query at a finite
    key returns the assigned value exactly on [lo <= k < hi] under policy
    [start] and on [lo < k <= hi] under policy [end]; at every other finite
    key it returns what it returned before. *)
Theorem X1_get_after_assign {V : Type} (m : SliceMap V) (s : slice)
    (v : option V) :
  reachable m ->
  step_ok s = true ->
  ek_lt (slice_lo s) (slice_hi s) ->
  exists m',
    setitem m s v = Ok m'
    /\ forall z : Z,
         getitem m' (Scalar (Fin z))
         = if assigned (include m) (slice_lo s) (slice_hi s) (Fin z)
           then Ok (RValue v)
           else getitem m (Scalar (Fin z)).
Proof.
  intros Hr Hstep Hlt. unfold ek_lt in Hlt.
  destruct (reachable_wf m Hr) as [Hwf _].
  destruct (setitem_cases m s v Hwf Hstep)
    as [[Hge _] | [_ (A & M & B & El & HA & HM & HB & E)]]; [congruence|].
  eexists. split; [exact E|]. intros z.
  rewrite !getitem_point. cbn [data include]. rewrite El in *.
  set (lo := slice_lo s) in *. set (hi := slice_hi s) in *.
  set (inc := include m). set (k := Fin z).
  destruct (assigned inc lo hi k) eqn:Ha.
  - rewrite owner_app, (owner_pass inc k A).
    + rewrite owner_app, (owner_pass inc k (start_entry lo _)).
      * rewrite owner_stop; [reflexivity|].
        eapply assigned_stop_hi; eassumption.
      * apply start_entry_pass. eapply assigned_pass_lo; eassumption.
    + eapply Forall_impl; [|exact HA]. intros q.
      eapply assigned_pass_below; eassumption.
  - destruct (passes inc k (mkPair hi v)) eqn:Hp.
    + assert (HpA : Forall (fun q => passes inc k q = true) A).
      { eapply Forall_impl; [|exact HA]. intros q Hq.
        apply (pass_upto inc hi k v); trivial.
        unfold below in Hq. apply ek_ltb_leb.
        eapply ek_ltb_trans; eassumption. }
      assert (HpM : Forall (fun q => passes inc k q = true) M).
      { eapply Forall_impl; [|exact HM]. intros q [_ Hq].
        now apply (pass_upto inc hi k v). }
      rewrite !owner_app, (owner_pass inc k A HpA), (owner_pass inc k M HpM).
      rewrite (owner_pass inc k (start_entry lo _)).
      * change (mkPair hi v :: B) with ([mkPair hi v] ++ B).
        rewrite owner_app, (owner_pass inc k [mkPair hi v]); [reflexivity|].
        now repeat constructor.
      * apply start_entry_pass. apply (pass_upto inc hi k v); trivial.
        simpl. now apply ek_ltb_leb.
    + rewrite (owner_app inc k A (M ++ B)).
      rewrite (owner_app inc k A (start_entry lo _ ++ _)).
      destruct (owner inc k A) as [p|]; [reflexivity|].
      destruct (rest_nonempty lo hi A M B Hlt Hwf HA) as (r & R & ER).
      rewrite ER.
      assert (Hr0 : ek_leb lo (up_to_key r) = true).
      { assert (Hall : Forall (fun q : Pair V => ek_leb lo (up_to_key q) = true)
                         (M ++ B)).
        { apply Forall_app; split.
          - eapply Forall_impl; [|exact HM]. now intros q [Hq _].
          - eapply Forall_impl; [|exact HB]. unfold above. intros q Hq.
            apply ek_ltb_leb. eapply ek_ltb_trans; eassumption. }
        rewrite ER in Hall. now inversion Hall. }
      rewrite owner_stop by (eapply stop_from; eassumption).
      unfold start_entry.
      rewrite (before_lo_finite inc lo hi z v Hlt Ha Hp).
      cbn [kept_value app].
      rewrite owner_stop; [reflexivity|].
      apply (stop_from inc lo hi z v); trivial. simpl.
      clear. unfold ek_leb. now rewrite ek_ltb_irrefl.
Qed.

Lemma X1_witness :
  exists m',
    setitem (mkSliceMap [mkPair PInf None] "end") (sl (Fin 0) (Fin 10))
            (Some "a"%string) = Ok m'
    /\ forall z : Z,
         getitem m' (Scalar (Fin z))
         = if assigned "end" (Fin 0) (Fin 10) (Fin z)
           then Ok (RValue (Some "a"%string))
           else getitem (mkSliceMap [mkPair PInf None] "end") (Scalar (Fin z)).
Proof.
  apply (X1_get_after_assign (mkSliceMap [mkPair PInf None] "end")
           (sl (Fin 0) (Fin 10)) (Some "a"%string)).
  - exists "end"%string, [], (mkSliceMap [mkPair PInf None] "end").
    split; reflexivity.
  - reflexivity.
  - reflexivity.
Defined.

(** ** Point queries at the infinities *)

Section Infinities.
Context {V : Type}.
Implicit Types (p q : Pair V) (l A M B R : list (Pair V)).
Implicit Types (m : SliceMap V) (v old : option V).

Lemma getlast_snoc A q : getlast (A ++ [q]) = Ok q.
Proof.
  unfold getlast, getidx. destruct (A ++ [q]) as [|a l] eqn:E.
  - now destruct A.
  - rewrite <- E, length_app. simpl.
    replace (Nat.pred (length A + 1)) with (length A) by lia.
    now rewrite nth_error_length_app.
Qed.

Lemma getlast_app_nonempty A B : B <> [] -> getlast (A ++ B) = getlast B.
Proof.
  intros HB. destruct (exists_last HB) as (B0 & b & ->).
  now rewrite app_assoc, !getlast_snoc.
Qed.

Lemma below_NInf_nil A : Forall (below NInf) A -> A = [].
Proof.
  destruct 1 as [|a A Ha _]; [reflexivity|].
  unfold below in Ha. destruct (up_to_key a); discriminate.
Qed.

(** Above a finite upper bound the sentinel is still there. *)
Lemma above_nonempty lo hi A M B :
  ek_ltb hi PInf = true -> wf (A ++ M ++ B) ->
  Forall (below lo) A -> Forall (within lo hi) M -> B <> [].
Proof.
  intros Hhi (_ & HE & _) HA HM ->. rewrite app_nil_r in HE.
  apply Exists_exists in HE as (q & Hq & Hk).
  rewrite Forall_forall in HA, HM.
  apply in_app_or in Hq as [Hq | Hq].
  - specialize (HA q Hq). unfold below in HA. rewrite Hk in HA.
    destruct lo; discriminate.
  - destruct (HM q Hq) as [_ H2]. rewrite Hk in H2.
    apply ek_PInf_leb in H2. subst hi. discriminate.
Qed.

End Infinities.

(** X2: after a non-empty assignment of [lo:hi], the query at [+inf]
    returns the assigned value when [hi] is [+inf] and its former result
    otherwise; the query at [-inf] returns the assigned value when [lo] is
    [-inf] and its former result otherwise. *)
Theorem X2_get_infinities_after_assign {V : Type} (m : SliceMap V)
    (s : slice) (v : option V) :
  reachable m ->
  step_ok s = true ->
  ek_lt (slice_lo s) (slice_hi s) ->
  exists m',
    setitem m s v = Ok m'
    /\ getitem m' (Scalar PInf)
       = (if ek_ltb (slice_hi s) PInf
          then getitem m (Scalar PInf) else Ok (RValue v))
    /\ getitem m' (Scalar NInf)
       = (if ek_ltb NInf (slice_lo s)
          then getitem m (Scalar NInf) else Ok (RValue v)).
Proof.
  intros Hr Hstep Hlt. unfold ek_lt in Hlt.
  destruct (reachable_wf m Hr) as [Hwf _].
  destruct (setitem_cases m s v Hwf Hstep)
    as [[Hge _] | [_ (A & M & B & El & HA & HM & HB & E)]]; [congruence|].
  eexists. split; [exact E|]. unfold getitem. cbn [data]. rewrite El in *.
  set (lo := slice_lo s) in *. set (hi := slice_hi s) in *. split.
  - destruct (ek_ltb hi PInf) eqn:Hhi.
    + pose proof (above_nonempty lo hi A M B Hhi Hwf HA HM) as HB0.
      rewrite (app_assoc A M B), (getlast_app_nonempty (A ++ M) B HB0).
      match goal with
      | |- context [A ++ ?X ++ ?t :: B] =>
          replace (A ++ X ++ t :: B) with ((A ++ X ++ [t]) ++ B)
            by (now rewrite <- !app_assoc)
      end.
      now rewrite (getlast_app_nonempty _ B HB0).
    + assert (hi = PInf) as Ehi by (clear - Hhi; destruct hi; trivial; discriminate).
      rewrite Ehi in HB. rewrite (above_PInf_nil B HB).
      now rewrite (app_assoc A), getlast_snoc.
  - unfold start_entry. destruct (ek_ltb NInf lo) eqn:Hlo.
    + destruct A as [|a A']; [|reflexivity]. simpl.
      destruct (rest_nonempty lo hi [] M B Hlt Hwf HA) as (r & R & ->).
      reflexivity.
    + assert (lo = NInf) as Elo by (clear - Hlo; destruct lo; trivial; discriminate).
      rewrite Elo in HA. now rewrite (below_NInf_nil A HA).
Qed.

Lemma X2_witness :
  exists m',
    setitem (mkSliceMap [mkPair PInf None] "start")
            (mkSlice None (Some (Fin 10)) None) (Some "a"%string) = Ok m'
    /\ getitem m' (Scalar PInf)
       = (if ek_ltb (Fin 10) PInf
          then getitem (mkSliceMap [mkPair PInf None] "start") (Scalar PInf)
          else Ok (RValue (Some "a"%string)))
    /\ getitem m' (Scalar NInf)
       = (if ek_ltb NInf NInf
          then getitem (mkSliceMap [mkPair PInf None] "start") (Scalar NInf)
          else Ok (RValue (Some "a"%string))).
Proof.
  apply (X2_get_infinities_after_assign
           (mkSliceMap [mkPair PInf None] "start")
           (mkSlice None (Some (Fin 10)) None) (Some "a"%string)).
  - exists "start"%string, [], (mkSliceMap [mkPair PInf None] "start").
    split; reflexivity.
  - reflexivity.
  - reflexivity.
Defined.

(** ** Point queries and the exported triples *)

Section QueryExport.
Context {V : Type}.
Implicit Types (p q : Pair V) (l A M B R : list (Pair V)).
Implicit Types (m : SliceMap V) (v old : option V).

Lemma triples_lower_bound l : forall lo0 t,
  sorted l -> Forall (above lo0) l -> In t (triples_from lo0 l) ->
  ek_leb lo0 (t_lower t) = true.
Proof.
  induction l as [|q l IH]; intros lo0 t Hs Hab Hin; simpl in Hin; [easy|].
  apply StronglySorted_inv in Hs as [Hs Hq].
  inversion Hab as [|q' l' Hq0 _]; subst.
  destruct Hin as [<- | Hin].
  - simpl. unfold ek_leb. now rewrite ek_ltb_irrefl.
  - specialize (IH (up_to_key q) t Hs Hq Hin).
    unfold above in Hq0. clear - IH Hq0.
    destruct (t_lower t), lo0, (up_to_key q); ek_solve.
Qed.

Lemma assigned_stops inc lo hi k q :
  assigned inc lo hi k = true -> up_to_key q = hi -> passes inc k q = false.
Proof. intros H <-. key_solve. Qed.

Lemma assigned_passes inc lo hi k q :
  assigned inc lo hi k = true -> ek_leb (up_to_key q) lo = true ->
  passes inc k q = true.
Proof. intros; key_solve. Qed.

Lemma owner_of_triple inc k l : forall lo0 lo hi v,
  sorted l -> Forall (above lo0) l ->
  In (lo, hi, v) (triples_from lo0 l) ->
  assigned inc lo hi k = true ->
  exists p, owner inc k l = Some p /\ value p = v.
Proof.
  induction l as [|q l IH]; intros lo0 lo hi v Hs Hab Hin Ha; simpl in Hin;
    [easy|].
  apply StronglySorted_inv in Hs as [Hs Hq].
  destruct Hin as [E | Hin].
  - injection E as <- <- <-. exists q. split; trivial.
    apply owner_stop. eapply assigned_stops; eauto.
  - pose proof (triples_lower_bound l _ _ Hs Hq Hin) as Hlb. simpl in Hlb.
    unfold owner. simpl.
    rewrite (assigned_passes inc lo hi k q Ha Hlb). simpl.
    now apply (IH (up_to_key q) lo hi v).
Qed.

Lemma triples_length l : forall lo0, length (triples_from lo0 l) = length l.
Proof. induction l as [|q l IH]; intros lo0; simpl; [|rewrite IH]; reflexivity. Qed.

Lemma wf_nonempty l : wf l -> exists q l', l = q :: l'.
Proof.
  intros (_ & HE & _). destruct l as [|q l']; [inversion HE | now exists q, l'].
Qed.

End QueryExport.

(** X3: point queries agree with the export.  In a reachable state, for
    every exported triple [(lo, hi, v)], the query at a finite key [k]
    returns [v] whenever [lo <= k < hi] under policy [start], respectively
    [lo < k <= hi] under policy [end]. *)
Theorem X3_get_agrees_with_export {V : Type} (m : SliceMap V)
    (ts : list (ekey * ekey * option V)) (lo hi : ekey) (v : option V)
    (z : Z) :
  reachable m ->
  export m = Ok ts ->
  In (lo, hi, v) ts ->
  assigned (include m) lo hi (Fin z) = true ->
  getitem m (Scalar (Fin z)) = Ok (RValue v).
Proof.
  intros Hr He Hin Ha. destruct (reachable_wf m Hr) as [Hwf _].
  destruct (wf_nonempty _ Hwf) as (q & l' & El).
  rewrite (export_triples m q l' El) in He. injection He as <-.
  destruct Hwf as (Hs & _ & Hn).
  destruct (owner_of_triple (include m) (Fin z) (data m) NInf lo hi v
              Hs Hn Hin Ha) as (p & Hp & <-).
  now rewrite getitem_point, Hp.
Qed.

Lemma X3_witness :
  getitem (mkSliceMap [mkPair (Fin 0) None; mkPair (Fin 10) (Some "a"%string);
                       mkPair PInf None] "start") (Scalar (Fin 0))
  = Ok (RValue (Some "a"%string)).
Proof.
  apply (X3_get_agrees_with_export
           (mkSliceMap [mkPair (Fin 0) None; mkPair (Fin 10) (Some "a"%string);
                        mkPair PInf None] "start")
           [(NInf, Fin 0, None); (Fin 0, Fin 10, Some "a"%string);
            (Fin 10, PInf, None)]
           (Fin 0) (Fin 10) (Some "a"%string) 0).
  - apply (build_reachable "start" (firstn 1 abc_calls)). reflexivity.
  - reflexivity.
  - right. left. reflexivity.
  - reflexivity.
Defined.

(** ** Errors *)

(** X4: on a reachable map an assignment fails only for a slice whose step
    is neither [None] nor [1], and then with [AssertionError]; with a valid
    step it returns a map that is again reachable, so the removal loop
    never pops out of range. *)
Theorem X4_setitem_errors {V : Type} (m : SliceMap V) (s : slice)
    (v : option V) :
  reachable m ->
  (step_ok s = true -> exists m', setitem m s v = Ok m' /\ reachable m')
  /\ (step_ok s = false -> setitem m s v = Raise AssertionError).
Proof.
  intros Hr. destruct (reachable_wf m Hr) as [Hwf _]. split; intros Hstep.
  - assert (E : exists m', setitem m s v = Ok m').
    { destruct (setitem_cases m s v Hwf Hstep)
        as [[_ E] | [_ (A & M & B & _ & _ & _ & _ & E)]]; eauto. }
    destruct E as [m' E]. exists m'. split; trivial.
    eapply reachable_setitem; eassumption.
  - unfold setitem. now rewrite Hstep.
Qed.

Lemma X4_witness :
  (step_ok (mkSlice (Some (Fin 0)) (Some (Fin 10)) (Some 2)) = true ->
   exists m',
     setitem (mkSliceMap [mkPair PInf None] "start")
             (mkSlice (Some (Fin 0)) (Some (Fin 10)) (Some 2))
             (Some "a"%string) = Ok m'
     /\ reachable m')
  /\ (step_ok (mkSlice (Some (Fin 0)) (Some (Fin 10)) (Some 2)) = false ->
      setitem (mkSliceMap [mkPair PInf None] "start")
              (mkSlice (Some (Fin 0)) (Some (Fin 10)) (Some 2))
              (Some "a"%string) = Raise AssertionError).
Proof.
  apply (X4_setitem_errors (mkSliceMap [mkPair PInf None] "start")
           (mkSlice (Some (Fin 0)) (Some (Fin 10)) (Some 2))
           (Some "a"%string)).
  exists "start"%string, [], (mkSliceMap [mkPair PInf None] "start").
  split; reflexivity.
Defined.

(** X5: in a reachable state a range query whose slice leaves out a bound
    raises [TypeError]: the missing bound is compared with the stored
    keys. *)
Theorem X5_range_query_missing_bound {V : Type} (m : SliceMap V) (s : slice) :
  reachable m ->
  slice_start s = None \/ slice_stop s = None ->
  getitem m (SliceKey s) = Raise TypeError.
Proof.
  intros Hr Hs. destruct (reachable_wf m Hr) as [Hwf _].
  destruct (wf_nonempty _ Hwf) as (q & l' & El).
  unfold getitem, search_bound. rewrite El.
  destruct (slice_start s) as [k1|]; [|reflexivity].
  destruct Hs as [Hs | Hs]; [discriminate|]. now rewrite Hs.
Qed.

Lemma X5_witness :
  getitem (mkSliceMap [mkPair PInf (@None string)] "start")
          (SliceKey (mkSlice (Some (Fin 0)) None None))
  = Raise TypeError.
Proof.
  apply (X5_range_query_missing_bound
           (mkSliceMap [mkPair PInf (@None string)] "start")
           (mkSlice (Some (Fin 0)) None None)).
  - exists "start"%string, [], (mkSliceMap [mkPair PInf None] "start").
    split; reflexivity.
  - right. reflexivity.
Defined.

(** ** The number of slices *)

Section Counting.
Context {V : Type}.
Implicit Types (p q : Pair V) (l A M B R : list (Pair V)).


End Counting.



(** X7: in a reachable state [export()] returns one triple more than
    [len] reports, and [len] is not negative. *)
Theorem X7_len_counts_export {V : Type} (m : SliceMap V) :
  reachable m ->
  exists ts,
    export m = Ok ts /\ Z.of_nat (length ts) = len m + 1 /\ 0 <= len m.
Proof.
  intros Hr. destruct (reachable_wf m Hr) as [Hwf _].
  destruct (wf_nonempty _ Hwf) as (q & l' & El).
  exists (triples_from NInf (data m)). split.
  - now apply export_triples with (q := q) (l := l').
  - rewrite triples_length. unfold len. rewrite El. simpl length. lia.
Qed.

Lemma X7_witness :
  exists ts,
    export (mkSliceMap [mkPair PInf (@None string)] "end") = Ok ts
    /\ Z.of_nat (length ts)
       = len (mkSliceMap [mkPair PInf (@None string)] "end") + 1
    /\ 0 <= len (mkSliceMap [mkPair PInf (@None string)] "end").
Proof.
  apply (X7_len_counts_export (mkSliceMap [mkPair PInf (@None string)] "end")).
  exists "end"%string, [], (mkSliceMap [mkPair PInf None] "end").
  split; reflexivity.
Defined.

(** ** Assigning the whole line *)

(** X8: in a reachable state [m[:] = v] (or any slice from [-inf] to
    [+inf]) leaves the single entry [(+inf, v)]: the export is the one
    triple [(-inf, +inf, v)] and [len] is 0. *)
Theorem X8_assign_everything {V : Type} (m : SliceMap V) (s : slice)
    (v : option V) :
  reachable m ->
  step_ok s = true ->
  slice_lo s = NInf ->
  slice_hi s = PInf ->
  exists m',
    setitem m s v = Ok m'
    /\ data m' = [mkPair PInf v]
    /\ export m' = Ok [(NInf, PInf, v)]
    /\ len m' = 0.
Proof.
  intros Hr Hstep Hlo Hhi. destruct (reachable_wf m Hr) as [Hwf _].
  destruct (setitem_cases m s v Hwf Hstep)
    as [[Hge _] | [_ (A & M & B & El & HA & HM & HB & E)]].
  - rewrite Hlo, Hhi in Hge. discriminate.
  - rewrite Hlo in HA. rewrite Hhi in HB.
    rewrite (below_NInf_nil A HA), (above_PInf_nil B HB), Hlo, Hhi in E.
    eexists. split; [exact E|]. repeat split.
Qed.

Lemma X8_witness :
  exists m',
    setitem (mkSliceMap [mkPair (Fin 0) None; mkPair (Fin 10) (Some "a"%string);
                         mkPair PInf None] "start")
            (mkSlice None None None) (Some "z"%string) = Ok m'
    /\ data m' = [mkPair PInf (Some "z"%string)]
    /\ export m' = Ok [(NInf, PInf, Some "z"%string)]
    /\ len m' = 0.
Proof.
  apply (X8_assign_everything
           (mkSliceMap [mkPair (Fin 0) None; mkPair (Fin 10) (Some "a"%string);
                        mkPair PInf None] "start")
           (mkSlice None None None) (Some "z"%string)).
  - apply (build_reachable "start" (firstn 1 abc_calls)). reflexivity.
  - reflexivity.
  - reflexivity.
  - reflexivity.
Defined.

(** ** The inclusion policy and the stored entries *)

Section Policy.
Context {V : Type}.
Implicit Types (l : list (Pair V)) (m : SliceMap V).

Lemma setitem_policy l inc1 inc2 s (v : option V) :
  setitem (mkSliceMap l inc2) s v
  = (m' <- setitem (mkSliceMap l inc1) s v ;; Ok (mkSliceMap (data m') inc2)).
Proof.
  unfold setitem. cbn [data include].
  destruct (negb (step_ok s)); [reflexivity|].
  destruct (ek_leb (slice_hi s) (slice_lo s)); [reflexivity|].
  now destruct (remove_covered l (slice_lo s) (slice_hi s)).
Qed.

Lemma assigns_policy calls : forall l inc1 inc2,
  assigns (mkSliceMap l inc2) calls
  = (m' <- assigns (mkSliceMap l inc1) calls ;; Ok (mkSliceMap (data m') inc2)).
Proof.
  induction calls as [|[s v] rest IH]; intros l inc1 inc2; simpl; [reflexivity|].
  rewrite (setitem_policy l inc1 inc2).
  destruct (setitem (mkSliceMap l inc1) s v) as [[l1 i1]|e]; simpl; [|reflexivity].
  now rewrite (IH l1 i1 inc2).
Qed.

End Policy.

(** X9: assignments do not depend on the inclusion policy.  The same
    sequence of assignments on a fresh map gives the same export (or the
    same error) under [start] and under [end]. *)
Theorem X9_export_ignores_policy {V : Type} (calls : list (slice * option V)) :
  (m <- build "start" calls ;; export m)
  = (m <- build "end" calls ;; export m).
Proof.
  unfold build, init. cbn [String.eqb Ascii.eqb Bool.eqb orb bind add
    bisect_right firstn skipn app].
  rewrite (assigns_policy calls [mkPair PInf None] "start" "end").
  now destruct (assigns (mkSliceMap [mkPair PInf None] "start") calls).
Qed.

(** ** How assignments compose *)

Ltac grp_solve :=
  repeat match goal with
         | H : _ /\ _ |- _ => destruct H
         end;
  key_solve.

(** Goals [Forall P (G1 ++ ... ++ Gn)] from one hypothesis per group. *)
Ltac grp :=
  repeat (apply Forall_app; split);
  first [ now apply Forall_nil
        | solve [ eapply Forall_impl; [|eassumption];
                  let q := fresh "q" in let Hq := fresh "Hq" in
                  intros q Hq; grp_solve ]
        | solve [ repeat constructor; grp_solve ] ].

Ltac assoc := repeat rewrite <- app_assoc; cbn [app]; reflexivity.

(** The side conditions of a split: solved where the groups decide them. *)
Ltac grps := try first [ assumption | assoc | grp ].

Section Composition.
Context {V : Type}.
Implicit Types (p q : Pair V) (l A M B R G : list (Pair V)).
Implicit Types (m : SliceMap V) (v old : option V).

(** Cutting the rest of a sorted list once more. *)
Lemma sorted_cut_next (g f : ekey -> bool) R :
  (forall a b, ek_ltb a b = true -> f b = true -> f a = true) ->
  sorted R ->
  Forall (fun q => g (up_to_key q) = false) R ->
  exists G R',
    R = G ++ R'
    /\ Forall (fun q => g (up_to_key q) = false /\ f (up_to_key q) = true) G
    /\ Forall (fun q => f (up_to_key q) = false) R'
    /\ sorted R'.
Proof.
  intros Hf Hs Hg.
  destruct (sorted_cut f R Hf Hs) as (G & R' & -> & HG & HR').
  exists G, R'. apply Forall_app in Hg as [Hg _].
  apply sorted_app_iff in Hs as (_ & Hs' & _).
  repeat split; trivial.
  rewrite Forall_forall in *. intros q Hq. split; auto.
Qed.

Lemma setitem_split_eq l A M B inc s v lo hi :
  slice_lo s = lo -> slice_hi s = hi ->
  l = A ++ M ++ B ->
  step_ok s = true ->
  ek_ltb lo hi = true ->
  Forall (below lo) A ->
  Forall (within lo hi) M ->
  Forall (above hi) B ->
  setitem (mkSliceMap l inc) s v
  = Ok (mkSliceMap
          (A ++ start_entry lo (kept_value (M ++ B)) ++ mkPair hi v :: B) inc).
Proof. intros <- <- ->. apply setitem_split. Qed.

(** A later assignment that covers an earlier one, on a list cut at the
    four bounds [c <= a < b <= d]. *)
Lemma absorb_groups A M0 M1 M2 B inc s1 s2 v1 v2 a b c d :
  slice_lo s1 = a -> slice_hi s1 = b ->
  slice_lo s2 = c -> slice_hi s2 = d ->
  step_ok s1 = true -> step_ok s2 = true ->
  ek_ltb a b = true -> ek_leb c a = true -> ek_leb b d = true ->
  Forall (fun q => ek_ltb (up_to_key q) c = true) A ->
  Forall (fun q => ek_ltb (up_to_key q) c = false
                   /\ ek_ltb (up_to_key q) a = true) M0 ->
  Forall (fun q => ek_ltb (up_to_key q) a = false
                   /\ ek_leb (up_to_key q) b = true) M1 ->
  Forall (fun q => ek_leb (up_to_key q) b = false
                   /\ ek_leb (up_to_key q) d = true) M2 ->
  Forall (fun q => ek_leb (up_to_key q) d = false) B ->
  exists m1 m2,
    setitem (mkSliceMap (A ++ M0 ++ M1 ++ M2 ++ B) inc) s1 v1 = Ok m1
    /\ setitem m1 s2 v2 = Ok m2
    /\ setitem (mkSliceMap (A ++ M0 ++ M1 ++ M2 ++ B) inc) s2 v2 = Ok m2.
Proof.
  intros Ea Eb Ec Ed Hs1 Hs2 Hlt1 Hlo Hhi HA H0 H1 H2 HB.
  assert (Hlt2 : ek_ltb c d = true) by (clear - Hlt1 Hlo Hhi; ek_solve).
  remember (start_entry a (kept_value (M1 ++ M2 ++ B))) as S1 eqn:ES1.
  assert (HS1 : Forall (within c d) S1).
  { rewrite ES1. unfold start_entry.
    destruct (ek_ltb NInf a); repeat constructor;
      simpl; clear - Hlt1 Hlo Hhi; ek_solve. }
  eexists. eexists. split; [|split].
  - rewrite ES1.
    apply (setitem_split_eq _ (A ++ M0) M1 (M2 ++ B) inc s1 v1 a b); grps.
  - rewrite <- ES1.
    apply (setitem_split_eq _ A (M0 ++ S1 ++ [mkPair b v1] ++ M2) B
             inc s2 v2 c d); grps.
  - rewrite (setitem_split_eq _ A (M0 ++ M1 ++ M2) B inc s2 v2 c d); grps.
    do 3 f_equal.
    unfold start_entry. destruct (ek_ltb NInf c) eqn:Hc; [|reflexivity].
    do 2 f_equal.
    destruct M0 as [|x M0']; [|reflexivity]. cbn [app].
    rewrite ES1. unfold start_entry.
    replace (ek_ltb NInf a) with true
      by (clear - Hc Hlo; symmetry; ek_solve).
    cbn [app kept_value]. now rewrite <- !app_assoc.
Qed.

End Composition.

Lemma lt_closed k a b :
  ek_ltb a b = true -> ek_ltb b k = true -> ek_ltb a k = true.
Proof. apply ek_ltb_trans. Qed.

Lemma le_closed k a b :
  ek_ltb a b = true -> ek_leb b k = true -> ek_leb a k = true.
Proof. intros H1 H2. apply ek_ltb_leb. eapply ek_ltb_leb_trans; eassumption. Qed.

Lemma setitem_empty {V : Type} (m : SliceMap V) s v :
  step_ok s = true -> ek_ltb (slice_lo s) (slice_hi s) = false ->
  setitem m s v = Ok m.
Proof.
  intros Hstep Hlt. unfold setitem. rewrite Hstep. simpl.
  unfold ek_leb. now rewrite Hlt.
Qed.

Lemma setitem_total {V : Type} (m : SliceMap V) s v :
  wf (data m) -> step_ok s = true -> exists m', setitem m s v = Ok m'.
Proof.
  intros Hwf Hstep.
  destruct (setitem_cases m s v Hwf Hstep)
    as [[_ E] | [_ (A & M & B & _ & _ & _ & _ & E)]]; eauto.
Qed.

(** X10: an assignment is forgotten once a later assignment covers its
    range.  If [lo2 <= lo1] and [hi1 <= hi2], assigning [lo1:hi1] and then
    [lo2:hi2] gives the same map as assigning [lo2:hi2] alone. *)
Theorem X10_covering_assign_absorbs {V : Type} (m : SliceMap V)
    (s1 s2 : slice) (v1 v2 : option V) :
  reachable m ->
  step_ok s1 = true -> step_ok s2 = true ->
  ek_le (slice_lo s2) (slice_lo s1) ->
  ek_le (slice_hi s1) (slice_hi s2) ->
  exists m1 m2,
    setitem m s1 v1 = Ok m1
    /\ setitem m1 s2 v2 = Ok m2
    /\ setitem m s2 v2 = Ok m2.
Proof.
  intros Hr Hs1 Hs2 Hlo Hhi. unfold ek_le in *.
  destruct (reachable_wf m Hr) as [Hwf _].
  destruct (ek_ltb (slice_lo s1) (slice_hi s1)) eqn:Hlt.
  - destruct Hwf as (Hs & _ & _). destruct m as [l inc]. simpl in Hs.
    remember (slice_lo s1) as a eqn:Ea. remember (slice_hi s1) as b eqn:Eb.
    remember (slice_lo s2) as c eqn:Ec. remember (slice_hi s2) as d eqn:Ed.
    destruct (sorted_cut (fun k => ek_ltb k c) l (lt_closed c) Hs)
      as (A & R1 & -> & HA & HR1).
    apply sorted_app_iff in Hs as (_ & Hs & _).
    destruct (sorted_cut_next (fun k => ek_ltb k c) (fun k => ek_ltb k a) R1
                (lt_closed a) Hs HR1) as (M0 & R2 & -> & H0 & HR2 & Hs2').
    destruct (sorted_cut_next (fun k => ek_ltb k a) (fun k => ek_leb k b) R2
                (le_closed b) Hs2' HR2) as (M1 & R3 & -> & H1 & HR3 & Hs3).
    destruct (sorted_cut_next (fun k => ek_leb k b) (fun k => ek_leb k d) R3
                (le_closed d) Hs3 HR3) as (M2 & B & -> & H2 & HB & _).
    now apply (absorb_groups A M0 M1 M2 B inc s1 s2 v1 v2 a b c d).
  - exists m. rewrite (setitem_empty m s1 v1 Hs1 Hlt).
    destruct (setitem_total m s2 v2 Hwf Hs2) as [m2 E].
    exists m2. now repeat split.
Qed.

Lemma X10_witness :
  exists m1 m2,
    setitem (mkSliceMap [mkPair PInf None] "start") (sl (Fin 3) (Fin 7))
            (Some "a"%string) = Ok m1
    /\ setitem m1 (sl (Fin 0) (Fin 10)) (Some "b"%string) = Ok m2
    /\ setitem (mkSliceMap [mkPair PInf None] "start") (sl (Fin 0) (Fin 10))
               (Some "b"%string) = Ok m2.
Proof.
  apply (X10_covering_assign_absorbs (mkSliceMap [mkPair PInf None] "start")
           (sl (Fin 3) (Fin 7)) (sl (Fin 0) (Fin 10))
           (Some "a"%string) (Some "b"%string)).
  - exists "start"%string, [], (mkSliceMap [mkPair PInf None] "start").
    split; reflexivity.
  - reflexivity.
  - reflexivity.
  - reflexivity.
  - reflexivity.
Defined.

Section Commutation.
Context {V : Type}.
Implicit Types (p q : Pair V) (l A M B R G E : list (Pair V)).
Implicit Types (m : SliceMap V) (v old : option V).

Lemma start_entry_at k old :
  Forall (fun q : Pair V => ek_leb k (up_to_key q) = true
                            /\ ek_leb (up_to_key q) k = true)
         (start_entry k old).
Proof.
  unfold start_entry. destruct (ek_ltb NInf k); repeat constructor; simpl;
    unfold ek_leb; now rewrite ek_ltb_irrefl.
Qed.

Lemma ek_leb_antisym a b :
  ek_leb a b = true -> ek_ltb a b = false -> a = b.
Proof. intros; ek_solve; f_equal; lia. Qed.

Lemma ltb_or_closed c b x y :
  ek_ltb x y = true ->
  (ek_ltb y c || ek_leb y b)%bool = true ->
  (ek_ltb x c || ek_leb x b)%bool = true.
Proof.
  intros H1 H2. apply orb_true_iff in H2. apply orb_true_iff.
  destruct H2 as [H2 | H2].
  - left. eapply ek_ltb_trans; eassumption.
  - right. eapply le_closed; eassumption.
Qed.

(** Two assignments to ranges that do not overlap, [a < b <= c < d], on a
    list cut at the four bounds. *)
Lemma commute_groups A M1 E G M2 B inc s1 s2 v1 v2 a b c d :
  slice_lo s1 = a -> slice_hi s1 = b ->
  slice_lo s2 = c -> slice_hi s2 = d ->
  step_ok s1 = true -> step_ok s2 = true ->
  ek_ltb a b = true -> ek_leb b c = true -> ek_ltb c d = true ->
  Forall (fun q => ek_ltb (up_to_key q) a = true) A ->
  Forall (fun q => ek_ltb (up_to_key q) a = false
                   /\ ek_ltb (up_to_key q) b = true) M1 ->
  Forall (fun q => ek_ltb (up_to_key q) b = false
                   /\ ek_leb (up_to_key q) b = true) E ->
  Forall (fun q => ek_leb (up_to_key q) b = false
                   /\ (ek_ltb (up_to_key q) c || ek_leb (up_to_key q) b)%bool
                      = true) G ->
  Forall (fun q => (ek_ltb (up_to_key q) c || ek_leb (up_to_key q) b)%bool
                   = false
                   /\ ek_leb (up_to_key q) d = true) M2 ->
  Forall (fun q => ek_leb (up_to_key q) d = false) B ->
  exists m1 m2 m',
    setitem (mkSliceMap (A ++ M1 ++ E ++ G ++ M2 ++ B) inc) s1 v1 = Ok m1
    /\ setitem m1 s2 v2 = Ok m'
    /\ setitem (mkSliceMap (A ++ M1 ++ E ++ G ++ M2 ++ B) inc) s2 v2 = Ok m2
    /\ setitem m2 s1 v1 = Ok m'.
Proof.
  intros Ea Eb Ec Ed Hs1 Hs2 Hab Hbc Hcd HA H1 HE HG H2 HB.
  assert (Hc : ek_ltb NInf c = true) by (clear - Hab Hbc; ek_solve).
  remember (start_entry a (kept_value ((M1 ++ E) ++ G ++ M2 ++ B)))
    as S1 eqn:ES1.
  pose proof (start_entry_at a (kept_value ((M1 ++ E) ++ G ++ M2 ++ B)))
    as HS1. rewrite <- ES1 in HS1.
  assert (E1 : setitem (mkSliceMap (A ++ M1 ++ E ++ G ++ M2 ++ B) inc) s1 v1
               = Ok (mkSliceMap (A ++ S1 ++ mkPair b v1 :: G ++ M2 ++ B) inc)).
  { rewrite ES1.
    apply (setitem_split_eq _ A (M1 ++ E) (G ++ M2 ++ B) inc s1 v1 a b); grps. }
  destruct (ek_ltb b c) eqn:Hlt.
  - (* a gap, or nothing, between the two ranges *)
    remember (start_entry c (kept_value (M2 ++ B))) as S2 eqn:ES2.
    pose proof (start_entry_at c (kept_value (M2 ++ B))) as HS2.
    rewrite <- ES2 in HS2.
    exists (mkSliceMap (A ++ S1 ++ mkPair b v1 :: G ++ M2 ++ B) inc).
    exists (mkSliceMap ((A ++ M1 ++ E ++ G) ++ S2 ++ mkPair d v2 :: B) inc).
    eexists. split; [exact E1|]. split; [|split].
    + rewrite ES2.
      apply (setitem_split_eq _ (A ++ S1 ++ [mkPair b v1] ++ G) M2 B
               inc s2 v2 c d); grps.
    + rewrite ES2.
      apply (setitem_split_eq _ (A ++ M1 ++ E ++ G) M2 B inc s2 v2 c d); grps.
    + rewrite (setitem_split_eq _ A (M1 ++ E) (G ++ S2 ++ [mkPair d v2] ++ B)
                 inc s1 v1 a b); grps.
      f_equal. f_equal. rewrite <- ES2.
      repeat rewrite <- app_assoc. cbn [app]. do 2 f_equal.
      rewrite ES1. f_equal.
      destruct M1 as [|x1 M1']; [|reflexivity].
      destruct E as [|x2 E']; [|reflexivity].
      destruct G as [|x3 G']; [|reflexivity].
      cbn [app]. rewrite ES2. unfold start_entry. now rewrite Hc.
  - (* the second range starts where the first ends *)
    pose proof (ek_leb_antisym b c Hbc Hlt) as Ebc.
    assert (Ec' : slice_lo s2 = b) by congruence. clear Ec. subst c.
    remember (start_entry b (kept_value ((E ++ G ++ M2) ++ B))) as S2 eqn:ES2.
    pose proof (start_entry_at b (kept_value ((E ++ G ++ M2) ++ B))) as HS2.
    rewrite <- ES2 in HS2.
    exists (mkSliceMap (A ++ S1 ++ mkPair b v1 :: G ++ M2 ++ B) inc).
    exists (mkSliceMap ((A ++ M1) ++ S2 ++ mkPair d v2 :: B) inc).
    eexists. split; [exact E1|]. split; [|split].
    + apply (setitem_split_eq _ (A ++ S1) ([mkPair b v1] ++ G ++ M2) B
               inc s2 v2 b d); grps.
    + rewrite ES2.
      apply (setitem_split_eq _ (A ++ M1) (E ++ G ++ M2) B inc s2 v2 b d); grps.
    + rewrite (setitem_split_eq _ A (M1 ++ S2) ([mkPair d v2] ++ B)
                 inc s1 v1 a b); grps.
      f_equal. f_equal.
      repeat rewrite <- app_assoc. cbn [app kept_value].
      unfold start_entry at 2. rewrite Hc. cbn [app value].
      do 2 f_equal. rewrite ES1. f_equal.
      destruct M1 as [|x1 M1']; [|reflexivity].
      cbn [app]. rewrite ES2. unfold start_entry. rewrite Hc.
      cbn [app kept_value]. now repeat rewrite <- app_assoc.
Qed.

End Commutation.

(** X11: assignments to ranges that do not overlap commute.  If
    [hi1 <= lo2], assigning [lo1:hi1] and then [lo2:hi2] gives the same map
    as assigning them in the other order. *)
Theorem X11_disjoint_assigns_commute {V : Type} (m : SliceMap V)
    (s1 s2 : slice) (v1 v2 : option V) :
  reachable m ->
  step_ok s1 = true -> step_ok s2 = true ->
  ek_le (slice_hi s1) (slice_lo s2) ->
  exists m1 m2 m',
    setitem m s1 v1 = Ok m1
    /\ setitem m1 s2 v2 = Ok m'
    /\ setitem m s2 v2 = Ok m2
    /\ setitem m2 s1 v1 = Ok m'.
Proof.
  intros Hr Hs1 Hs2 Hbc. unfold ek_le in Hbc.
  destruct (reachable_wf m Hr) as [Hwf _].
  destruct (ek_ltb (slice_lo s1) (slice_hi s1)) eqn:Hab.
  - destruct (ek_ltb (slice_lo s2) (slice_hi s2)) eqn:Hcd.
    + destruct Hwf as (Hs & _ & _). destruct m as [l inc]. simpl in Hs.
      remember (slice_lo s1) as a eqn:Ea. remember (slice_hi s1) as b eqn:Eb.
      remember (slice_lo s2) as c eqn:Ec. remember (slice_hi s2) as d eqn:Ed.
      destruct (sorted_cut (fun k => ek_ltb k a) l (lt_closed a) Hs)
        as (A & R1 & -> & HA & HR1).
      apply sorted_app_iff in Hs as (_ & Hs & _).
      destruct (sorted_cut_next (fun k => ek_ltb k a) (fun k => ek_ltb k b) R1
                  (lt_closed b) Hs HR1) as (M1 & R2 & -> & H1 & HR2 & Hs2').
      destruct (sorted_cut_next (fun k => ek_ltb k b) (fun k => ek_leb k b) R2
                  (le_closed b) Hs2' HR2) as (E & R3 & -> & HE & HR3 & Hs3).
      destruct (sorted_cut_next (fun k => ek_leb k b)
                  (fun k => (ek_ltb k c || ek_leb k b)%bool) R3
                  (ltb_or_closed c b) Hs3 HR3)
        as (G & R4 & -> & HG & HR4 & Hs4).
      destruct (sorted_cut_next (fun k => (ek_ltb k c || ek_leb k b)%bool)
                  (fun k => ek_leb k d) R4 (le_closed d) Hs4 HR4)
        as (M2 & B & -> & H2 & HB & _).
      now apply (commute_groups A M1 E G M2 B inc s1 s2 v1 v2 a b c d).
    + destruct (setitem_total m s1 v1 Hwf Hs1) as [m1 E1].
      exists m1, m, m1. rewrite (setitem_empty m s2 v2 Hs2 Hcd).
      rewrite (setitem_empty m1 s2 v2 Hs2 Hcd). now repeat split.
  - destruct (setitem_total m s2 v2 Hwf Hs2) as [m2 E2].
    exists m, m2, m2. rewrite (setitem_empty m s1 v1 Hs1 Hab).
    rewrite (setitem_empty m2 s1 v1 Hs1 Hab). now repeat split.
Qed.

Lemma X11_witness :
  exists m1 m2 m',
    setitem (mkSliceMap [mkPair PInf None] "start") (sl (Fin 0) (Fin 10))
            (Some "a"%string) = Ok m1
    /\ setitem m1 (sl (Fin 10) (Fin 20)) (Some "b"%string) = Ok m'
    /\ setitem (mkSliceMap [mkPair PInf None] "start") (sl (Fin 10) (Fin 20))
               (Some "b"%string) = Ok m2
    /\ setitem m2 (sl (Fin 0) (Fin 10)) (Some "a"%string) = Ok m'.
Proof.
  apply (X11_disjoint_assigns_commute (mkSliceMap [mkPair PInf None] "start")
           (sl (Fin 0) (Fin 10)) (sl (Fin 10) (Fin 20))
           (Some "a"%string) (Some "b"%string)).
  - exists "start"%string, [], (mkSliceMap [mkPair PInf None] "start").
    split; reflexivity.
  - reflexivity.
  - reflexivity.
  - reflexivity.
Defined.

(** ** Writing an export back *)

Section Replay.
Context {V : Type}.
Implicit Types (p q : Pair V) (l P B : list (Pair V)).

Lemma sorted_snoc_below P q :
  sorted (P ++ [q]) ->
  Forall (fun x => ek_ltb (up_to_key x) (up_to_key q) = true) P.
Proof.
  intros Hs. apply sorted_app_iff in Hs as (_ & _ & Hc).
  eapply Forall_impl; [|exact Hc]. intros x Hx. now inversion Hx.
Qed.

Lemma pair_eta q : mkPair (up_to_key q) (value q) = q.
Proof. now destruct q. Qed.

(** Writing back the triple of one entry [q], when the entries [P] before
    it are in place already: [q] comes to stand behind [P]. *)
Lemma replay_step P q lo0 inc :
  sorted (P ++ [q]) -> Forall (above NInf) (P ++ [q]) ->
  (P = [] /\ lo0 = NInf) \/ (exists P0 p, P = P0 ++ [p] /\ lo0 = up_to_key p) ->
  setitem (mkSliceMap (P ++ [mkPair PInf None]) inc)
          (sl lo0 (up_to_key q)) (value q)
  = Ok (mkSliceMap
          (P ++ q :: (if ek_ltb (up_to_key q) PInf
                      then [mkPair PInf None] else [])) inc).
Proof.
  intros Hs Hn HP.
  pose proof (sorted_snoc_below P q Hs) as HPq.
  apply Forall_app in Hn as [HnP Hnq]. inversion Hnq as [|? ? Hq0 _]; subst.
  destruct HP as [[-> ->] | (P0 & p & -> & ->)].
  - destruct (ek_ltb (up_to_key q) PInf) eqn:Hq.
    + rewrite (setitem_split_eq _ [] [] [mkPair PInf None] inc _ _
                 NInf (up_to_key q)); grps.
    + assert (Eq : up_to_key q = PInf)
        by (clear - Hq; destruct (up_to_key q); trivial; discriminate).
      rewrite (setitem_split_eq _ [] [mkPair PInf None] [] inc _ _
                 NInf (up_to_key q)); grps.
  - apply Forall_app in HPq as [_ Hpq]. inversion Hpq as [|? ? Hpq0 _]; subst.
    apply Forall_app in HnP as [_ Hnp]. inversion Hnp as [|? ? Hp0 _]; subst.
    apply sorted_app_iff in Hs as (Hs & _ & _).
    pose proof (sorted_snoc_below P0 p Hs) as HP0.
    unfold above in Hp0.
    destruct (ek_ltb (up_to_key q) PInf) eqn:Hq.
    + rewrite (setitem_split_eq _ P0 [p] [mkPair PInf None] inc _ _
                 (up_to_key p) (up_to_key q)); grps.
      unfold start_entry. rewrite Hp0. cbn [app kept_value].
      rewrite !pair_eta. now rewrite <- app_assoc.
    + assert (Eq : up_to_key q = PInf)
        by (clear - Hq; destruct (up_to_key q); trivial; discriminate).
      rewrite (setitem_split_eq _ P0 ([p] ++ [mkPair PInf None]) [] inc _ _
                 (up_to_key p) (up_to_key q)); grps.
      unfold start_entry. rewrite Hp0. cbn [app kept_value].
      rewrite !pair_eta. now rewrite <- app_assoc.
Qed.

Lemma calls_of_cons lo0 q l :
  calls_of (triples_from lo0 (q :: l))
  = (sl lo0 (up_to_key q), value q) :: calls_of (triples_from (up_to_key q) l).
Proof. reflexivity. Qed.

Lemma replay l : forall P lo0 inc,
  wf (P ++ l) -> l <> [] ->
  (P = [] /\ lo0 = NInf) \/ (exists P0 p, P = P0 ++ [p] /\ lo0 = up_to_key p) ->
  assigns (mkSliceMap (P ++ [mkPair PInf None]) inc)
          (calls_of (triples_from lo0 l))
  = Ok (mkSliceMap (P ++ l) inc).
Proof.
  induction l as [|q l IH]; intros P lo0 inc Hwf Hne HP; [easy|].
  rewrite calls_of_cons. cbn [assigns].
  assert (Hwf' : wf ((P ++ [q]) ++ l)) by (now rewrite <- app_assoc).
  destruct Hwf' as (Hs' & _ & Hn').
  apply sorted_app_iff in Hs' as (HsPq & _ & Hcross).
  apply Forall_app in Hn' as [HnPq _].
  rewrite (replay_step P q lo0 inc HsPq HnPq HP). cbn [bind].
  destruct l as [|r l'].
  - destruct (wf_last _ Hwf) as (X & w & EX & _).
    apply app_inj_tail in EX as [_ ->]. reflexivity.
  - assert (Hq : ek_ltb (up_to_key q) PInf = true).
    { apply Forall_app in Hcross as [_ Hq]. inversion Hq as [|? ? Hqr _]; subst.
      inversion Hqr as [|? ? Hqr0 _]; subst. unfold key_lt in Hqr0.
      clear - Hqr0. destruct (up_to_key q), (up_to_key r); ek_solve. }
    rewrite Hq.
    replace (P ++ q :: [mkPair PInf None])
      with ((P ++ [q]) ++ [mkPair PInf None]) by (now rewrite <- app_assoc).
    rewrite (IH (P ++ [q]) (up_to_key q) inc).
    + now rewrite <- app_assoc.
    + now rewrite <- app_assoc.
    + discriminate.
    + right. now exists P, q.
Qed.

End Replay.

(** X12: an export can be written back.  In a reachable state, assigning
    the exported triples one after the other to a fresh map with the same
    policy rebuilds the map. *)
Theorem X12_export_replay {V : Type} (m : SliceMap V)
    (ts : list (ekey * ekey * option V)) :
  reachable m ->
  export m = Ok ts ->
  build (include m) (calls_of ts) = Ok m.
Proof.
  intros Hr He. destruct (reachable_wf m Hr) as [Hwf Hinc].
  destruct (wf_nonempty _ Hwf) as (q & l' & El).
  rewrite (export_triples m q l' El) in He. injection He as <-.
  unfold build, init.
  replace (String.eqb (include m) "start" || String.eqb (include m) "end")%bool
    with true by (now destruct Hinc as [-> | ->]).
  cbn [bind add bisect_right firstn skipn app].
  assert (Hne : data m <> []) by (rewrite El; discriminate).
  pose proof (replay (data m) [] NInf (include m) Hwf Hne
                (or_introl (conj eq_refl eq_refl))) as H.
  cbn [app] in H. rewrite H. now destruct m.
Qed.

Lemma X12_witness :
  build "start"
        (calls_of [(NInf, Fin 0, None); (Fin 0, Fin 10, Some "a"%string);
                   (Fin 10, PInf, None)])
  = Ok (mkSliceMap [mkPair (Fin 0) None; mkPair (Fin 10) (Some "a"%string);
                    mkPair PInf None] "start").
Proof.
  apply (X12_export_replay
           (mkSliceMap [mkPair (Fin 0) None; mkPair (Fin 10) (Some "a"%string);
                        mkPair PInf None] "start")
           [(NInf, Fin 0, None); (Fin 0, Fin 10, Some "a"%string);
            (Fin 10, PInf, None)]).
  - apply (build_reachable "start" (firstn 1 abc_calls)). reflexivity.
  - reflexivity.
Defined.

(** ** The printed form *)

Section Printing.
Context {V : Type}.
Variable show : V -> string.
Variable limit : nat.
Implicit Types (p q : Pair V) (l : list (Pair V)).





End Printing.



(** ** Where returned values come from *)

Section Provenance.
Context {V : Type}.
Variable P : option V -> Prop.
Hypothesis P_None : P None.
Implicit Types (p q : Pair V) (l A M B : list (Pair V)) (m : SliceMap V).

Lemma kept_value_in l : Forall (fun q => P (value q)) l -> P (kept_value l).
Proof. destruct 1; simpl; trivial. Qed.

Lemma setitem_values m s v m' :
  wf (data m) -> P v -> Forall (fun q => P (value q)) (data m) ->
  setitem m s v = Ok m' -> Forall (fun q => P (value q)) (data m').
Proof.
  intros Hwf Hv Hall E.
  destruct (step_ok s) eqn:Hstep;
    [|unfold setitem in E; rewrite Hstep in E; discriminate].
  destruct (setitem_cases m s v Hwf Hstep)
    as [[_ E'] | [_ (A & M & B & El & _ & _ & _ & E')]];
    rewrite E' in E; injection E as <-; trivial.
  cbn [data]. rewrite El in Hall.
  apply Forall_app in Hall as [HA HMB].
  pose proof (kept_value_in _ HMB) as Hk.
  apply Forall_app in HMB as [_ HB].
  apply Forall_app; split; trivial. apply Forall_app; split.
  - unfold start_entry. destruct (ek_ltb NInf (slice_lo s)); repeat constructor.
    exact Hk.
  - constructor; trivial.
Qed.

Lemma assigns_values calls : forall m m',
  wf (data m) -> Forall (fun c => P (snd c)) calls ->
  Forall (fun q => P (value q)) (data m) ->
  assigns m calls = Ok m' -> Forall (fun q => P (value q)) (data m').
Proof.
  induction calls as [|[s v] rest IH]; simpl; intros m m' Hwf Hc Hall E.
  - now injection E as <-.
  - inversion Hc as [|c cs Hv Hrest]; subst. simpl in Hv.
    destruct (setitem m s v) as [m1|e] eqn:E1; simpl in E; [|discriminate].
    apply (IH m1 m'); trivial.
    + eapply setitem_wf; eassumption.
    + eapply setitem_values; eassumption.
Qed.

Lemma getidx_values l i p :
  Forall (fun q => P (value q)) l -> getidx l i = Ok p -> P (value p).
Proof.
  unfold getidx. intros Hall E.
  destruct (nth_error l i) as [x|] eqn:En; [|discriminate].
  injection E as <-. rewrite Forall_forall in Hall.
  apply Hall. eapply nth_error_In. exact En.
Qed.

Lemma values_at_values l idxs : forall t,
  Forall (fun q => P (value q)) l -> values_at l idxs = Ok t -> Forall P t.
Proof.
  induction idxs as [|i rest IH]; simpl; intros t Hall E.
  - injection E as <-. constructor.
  - destruct (getidx l i) as [p|e] eqn:Ep; simpl in E; [|discriminate].
    destruct (values_at l rest) as [vs|e] eqn:Ev; simpl in E; [|discriminate].
    injection E as <-. constructor.
    + eapply getidx_values; eassumption.
    + now apply IH.
Qed.

Lemma getitem_values m key r :
  Forall (fun q => P (value q)) (data m) ->
  getitem m key = Ok r ->
  match r with
  | RValue w => P w
  | RTuple t => Forall P t
  end.
Proof.
  intros Hall E. unfold getitem in E.
  destruct key as [[|z|]|s].
  - destruct (getidx (data m) 0) as [p|e] eqn:Ep; simpl in E; [|discriminate].
    injection E as <-. eapply getidx_values; eassumption.
  - destruct (getidx (data m) _) as [p|e] eqn:Ep; simpl in E; [|discriminate].
    injection E as <-. eapply getidx_values; eassumption.
  - unfold getlast in E. destruct (data m) as [|a l] eqn:El; [discriminate|].
    destruct (getidx (a :: l) _) as [p|e] eqn:Ep; simpl in E; [|discriminate].
    injection E as <-. eapply getidx_values; eassumption.
  - destruct (search_bound m (slice_start s)) as [i1|e]; simpl in E;
      [|discriminate].
    destruct (search_bound m (slice_stop s)) as [i2|e]; simpl in E;
      [|discriminate].
    destruct (values_at (data m) (range i1 (i2 + 1))) as [t|e] eqn:Et;
      simpl in E; [|discriminate].
    injection E as <-. eapply values_at_values; eassumption.
Qed.

End Provenance.

(** X14: a query never returns a value that was not put in.  On a map
    built by a sequence of assignments, every value a point query returns,
    and every element of the tuple a range query returns, is [None] or one
    of the assigned values. *)
Theorem X14_values_come_from_assigns {V : Type} (inc : string)
    (calls : list (slice * option V)) (m : SliceMap V) (key : getkey)
    (r : ret V) :
  build inc calls = Ok m ->
  getitem m key = Ok r ->
  match r with
  | RValue w => w = None \/ In w (map snd calls)
  | RTuple t => Forall (fun w => w = None \/ In w (map snd calls)) t
  end.
Proof.
  intros Hb Hg. unfold build in Hb.
  destruct (init inc) as [m0|e] eqn:Ei; simpl in Hb; [|discriminate].
  destruct (init_wf inc m0 Ei) as (Hwf0 & _ & _).
  apply (getitem_values (fun w => w = None \/ In w (map snd calls))
           m key r); trivial.
  apply (assigns_values (fun w => w = None \/ In w (map snd calls))
           (or_introl eq_refl) calls m0 m); trivial.
  - apply Forall_forall. intros c Hc. right. now apply in_map.
  - unfold init in Ei.
    destruct (String.eqb inc "start" || String.eqb inc "end")%bool;
      [|discriminate].
    injection Ei as <-. repeat constructor.
Qed.

Lemma X14_witness :
  Some "b"%string = None
  \/ In (Some "b"%string) (map snd (firstn 2 abc_calls)).
Proof.
  apply (X14_values_come_from_assigns "start" (firstn 2 abc_calls)
           (mkSliceMap [mkPair (Fin 0) None; mkPair (Fin 10) (Some "a"%string);
                        mkPair (Fin 20) (Some "b"%string); mkPair PInf None]
                       "start")
           (Scalar (Fin 10)) (RValue (Some "b"%string))); reflexivity.
Defined.

(** ** The assigned range in the export *)

Lemma triples_adjacent {V : Type} (X B : list (Pair V)) (p q : Pair V) :
  forall lo0,
    In (up_to_key p, up_to_key q, value q)
       (triples_from lo0 (X ++ p :: q :: B)).
Proof.
  induction X as [|x X IH]; intros lo0; simpl.
  - right. now left.
  - right. apply IH.
Qed.

(** X15: after a non-empty assignment of [lo:hi] the export holds the
    triple [(lo, hi, value)] itself: the assigned range is neither split
    nor merged with a neighbour, even one that holds the same value. *)
Theorem X15_assigned_range_exported {V : Type} (m : SliceMap V) (s : slice)
    (v : option V) :
  reachable m ->
  step_ok s = true ->
  ek_lt (slice_lo s) (slice_hi s) ->
  exists m' ts,
    setitem m s v = Ok m'
    /\ export m' = Ok ts
    /\ In (slice_lo s, slice_hi s, v) ts.
Proof.
  intros Hr Hstep Hlt. unfold ek_lt in Hlt.
  destruct (reachable_wf m Hr) as [Hwf _].
  destruct (setitem_cases m s v Hwf Hstep)
    as [[Hge _] | [_ (A & M & B & El & HA & HM & HB & E)]]; [congruence|].
  eexists. exists (triples_from NInf
                     (A ++ start_entry (slice_lo s) (kept_value (M ++ B))
                        ++ mkPair (slice_hi s) v :: B)).
  split; [exact E|]. split.
  - unfold export, getidx. cbn [data].
    destruct (A ++ start_entry (slice_lo s) (kept_value (M ++ B))
                ++ mkPair (slice_hi s) v :: B) as [|q l] eqn:El'.
    + destruct A; [|discriminate]. simpl in El'.
      destruct (start_entry _ _); discriminate.
    + cbn [nth_error bind tl triples_from]. now rewrite combine_tl_triples.
  - unfold start_entry. destruct (ek_ltb NInf (slice_lo s)) eqn:Hlo.
    + cbn [app].
      apply (triples_adjacent A B (mkPair (slice_lo s) _) (mkPair (slice_hi s) v)).
    + assert (Elo : slice_lo s = NInf)
        by (clear - Hlo; destruct (slice_lo s); trivial; discriminate).
      rewrite Elo in *. rewrite (below_NInf_nil A HA). simpl. now left.
Qed.

Lemma X15_witness :
  exists m' ts,
    setitem (mkSliceMap [mkPair (Fin 0) None; mkPair (Fin 10) (Some "a"%string);
                         mkPair PInf None] "start")
            (sl (Fin 10) (Fin 20)) (Some "a"%string) = Ok m'
    /\ export m' = Ok ts
    /\ In (Fin 10, Fin 20, Some "a"%string) ts.
Proof.
  apply (X15_assigned_range_exported
           (mkSliceMap [mkPair (Fin 0) None; mkPair (Fin 10) (Some "a"%string);
                        mkPair PInf None] "start")
           (sl (Fin 10) (Fin 20)) (Some "a"%string)).
  - apply (build_reachable "start" (firstn 1 abc_calls)). reflexivity.
  - reflexivity.
  - reflexivity.
Defined.
